(** * enproxy.Conn: the net.Conn surface of conn_intf.go

    A shallow embedding of the constants, the data types and the methods
    declared in [conn_intf.go]: [Write], [Read], [Close], [isClosed] and the
    five unimplemented methods.  Methods are written in a small monad that
    threads the [Conn], records the synchronisation events a call performs,
    and distinguishes a call that returns from one that parks on a channel
    or mutex and from one that panics. *)

From Stdlib Require Import ZArith List String Bool Lia Arith.
From Stdlib Require Import Strings.Byte.
Import ListNotations.
Local Open Scope string_scope.
Local Open Scope list_scope.

(** ** Constants (conn_intf.go, lines 11-23) *)

Definition X_HTTPCONN_ID : string := "X-HTTPConn-Id".
Definition X_HTTPCONN_DEST_ADDR : string := "X-HTTPConn-Dest-Addr".
Definition X_HTTPCONN_EOF : string := "X-HTTPConn-EOF".
Definition X_HTTPCONN_PROXY_HOST : string := "X-HTTPConn-Proxy-Host".

(** Go's [time.Duration] is an int64 count of nanoseconds; the unit constants
    are those of Go's [time] package. *)
Module time.
Local Open Scope Z_scope.
Definition Duration : Type := Z.
Definition Nanosecond : Duration := 1.
Definition Microsecond : Duration := 1000 * Nanosecond.
Definition Millisecond : Duration := 1000 * Microsecond.
Definition Second : Duration := 1000 * Millisecond.

Definition minInt64 : Z := - 2 ^ 63.
Definition maxInt64 : Z := 2 ^ 63 - 1.

(** Two's-complement wrap-around of an int64. *)
Definition wrap (z : Z) : Duration := (z + 2 ^ 63) mod 2 ^ 64 - 2 ^ 63.
End time.

Definition defaultIdleInterval : time.Duration := (15 * time.Millisecond)%Z.
Definition defaultIdleTimeout : time.Duration := (70 * time.Second)%Z.
Definition emptyBuffer : list byte := [].

(** ** Data model *)

(** Go's [error] interface: nil, the sentinel [io.EOF], or any other error. *)
Inductive error : Type :=
| err_nil
| io_EOF
| err_other (msg : string).

(** rwResponse is a response to a read or write (lines 107-111). *)
Record rwResponse : Type := mk_rwResponse { n : Z; err : error }.

(** The zero value a receive yields on a closed, drained channel. *)
Definition rwResponse_zero : rwResponse := {| n := 0%Z; err := err_nil |}.

(** The only value ever sent on a stop channel ([chan interface{}]) is nil. *)
Inductive iface : Type := iface_nil.

(** Config (lines 113-129).  The two function-valued collaborators
    [DialProxy] and [NewRequest] are not used by any method modelled here
    and are left out. *)
Record Config : Type := mk_Config {
  IdleInterval : time.Duration;
  IdleTimeout : time.Duration
}.

(** A Go channel, as the runtime keeps it: the buffered values (oldest
    first), the buffer's capacity, the values of the senders parked on the
    channel (oldest first), the number of receivers parked on it, and the
    closed flag.  A nil channel is the open channel of capacity 0 on which
    nobody ever waits. *)
Record chan (A : Type) : Type := mk_chan {
  buf : list A;
  cap : nat;
  sendq : list A;
  recvq : nat;
  chclosed : bool
}.
Arguments mk_chan {A}.
Arguments buf {A}.
Arguments cap {A}.
Arguments sendq {A}.
Arguments recvq {A}.
Arguments chclosed {A}.

(** sync.RWMutex: whether a writer holds it, and how many readers do. *)
Record RWMutex : Type := mk_RWMutex { writer : bool; readers : nat }.

(** Conn (lines 59-101).  [proxyHostCh], [reqOutCh], [reqBodyWriter] and
    [resp] belong to the processors and are touched by no method of
    conn_intf.go; they are left out. *)
Record Conn : Type := mk_Conn {
  Addr : string;
  config : Config;
  id : string;
  writeRequestsCh : chan (list byte);
  writeResponsesCh : chan rwResponse;
  stopWriteCh : chan iface;
  doneWriting : bool;
  writeMutex : RWMutex;
  readRequestsCh : chan (list byte);
  readResponsesCh : chan rwResponse;
  stopReadCh : chan iface;
  doneReading : bool;
  readMutex : RWMutex;
  stopReqCh : chan iface;
  doneRequesting : bool;
  requestMutex : RWMutex;
  lastActivityTime : Z;
  lastActivityMutex : RWMutex;
  closed : bool;
  closedMutex : RWMutex
}.

(** Field updates. *)
Definition set_writeRequestsCh (v : chan (list byte)) (c : Conn) : Conn :=
  mk_Conn (Addr c) (config c) (id c) v (writeResponsesCh c) (stopWriteCh c)
    (doneWriting c) (writeMutex c) (readRequestsCh c) (readResponsesCh c)
    (stopReadCh c) (doneReading c) (readMutex c) (stopReqCh c)
    (doneRequesting c) (requestMutex c) (lastActivityTime c)
    (lastActivityMutex c) (closed c) (closedMutex c).

Definition set_writeResponsesCh (v : chan rwResponse) (c : Conn) : Conn :=
  mk_Conn (Addr c) (config c) (id c) (writeRequestsCh c) v (stopWriteCh c)
    (doneWriting c) (writeMutex c) (readRequestsCh c) (readResponsesCh c)
    (stopReadCh c) (doneReading c) (readMutex c) (stopReqCh c)
    (doneRequesting c) (requestMutex c) (lastActivityTime c)
    (lastActivityMutex c) (closed c) (closedMutex c).

Definition set_stopWriteCh (v : chan iface) (c : Conn) : Conn :=
  mk_Conn (Addr c) (config c) (id c) (writeRequestsCh c) (writeResponsesCh c) v
    (doneWriting c) (writeMutex c) (readRequestsCh c) (readResponsesCh c)
    (stopReadCh c) (doneReading c) (readMutex c) (stopReqCh c)
    (doneRequesting c) (requestMutex c) (lastActivityTime c)
    (lastActivityMutex c) (closed c) (closedMutex c).

Definition set_readRequestsCh (v : chan (list byte)) (c : Conn) : Conn :=
  mk_Conn (Addr c) (config c) (id c) (writeRequestsCh c) (writeResponsesCh c)
    (stopWriteCh c) (doneWriting c) (writeMutex c) v (readResponsesCh c)
    (stopReadCh c) (doneReading c) (readMutex c) (stopReqCh c)
    (doneRequesting c) (requestMutex c) (lastActivityTime c)
    (lastActivityMutex c) (closed c) (closedMutex c).

Definition set_readResponsesCh (v : chan rwResponse) (c : Conn) : Conn :=
  mk_Conn (Addr c) (config c) (id c) (writeRequestsCh c) (writeResponsesCh c)
    (stopWriteCh c) (doneWriting c) (writeMutex c) (readRequestsCh c) v
    (stopReadCh c) (doneReading c) (readMutex c) (stopReqCh c)
    (doneRequesting c) (requestMutex c) (lastActivityTime c)
    (lastActivityMutex c) (closed c) (closedMutex c).

Definition set_stopReadCh (v : chan iface) (c : Conn) : Conn :=
  mk_Conn (Addr c) (config c) (id c) (writeRequestsCh c) (writeResponsesCh c)
    (stopWriteCh c) (doneWriting c) (writeMutex c) (readRequestsCh c)
    (readResponsesCh c) v (doneReading c) (readMutex c) (stopReqCh c)
    (doneRequesting c) (requestMutex c) (lastActivityTime c)
    (lastActivityMutex c) (closed c) (closedMutex c).

Definition set_stopReqCh (v : chan iface) (c : Conn) : Conn :=
  mk_Conn (Addr c) (config c) (id c) (writeRequestsCh c) (writeResponsesCh c)
    (stopWriteCh c) (doneWriting c) (writeMutex c) (readRequestsCh c)
    (readResponsesCh c) (stopReadCh c) (doneReading c) (readMutex c) v
    (doneRequesting c) (requestMutex c) (lastActivityTime c)
    (lastActivityMutex c) (closed c) (closedMutex c).

Definition set_closed (v : bool) (c : Conn) : Conn :=
  mk_Conn (Addr c) (config c) (id c) (writeRequestsCh c) (writeResponsesCh c)
    (stopWriteCh c) (doneWriting c) (writeMutex c) (readRequestsCh c)
    (readResponsesCh c) (stopReadCh c) (doneReading c) (readMutex c)
    (stopReqCh c) (doneRequesting c) (requestMutex c) (lastActivityTime c)
    (lastActivityMutex c) v (closedMutex c).

Definition set_closedMutex (v : RWMutex) (c : Conn) : Conn :=
  mk_Conn (Addr c) (config c) (id c) (writeRequestsCh c) (writeResponsesCh c)
    (stopWriteCh c) (doneWriting c) (writeMutex c) (readRequestsCh c)
    (readResponsesCh c) (stopReadCh c) (doneReading c) (readMutex c)
    (stopReqCh c) (doneRequesting c) (requestMutex c) (lastActivityTime c)
    (lastActivityMutex c) (closed c) v.

(** ** Synchronisation events and outcomes *)

Inductive chanName : Type :=
| N_writeRequestsCh | N_writeResponsesCh | N_stopWriteCh
| N_readRequestsCh | N_readResponsesCh | N_stopReadCh
| N_stopReqCh.

Inductive mutexName : Type := N_closedMutex.

(** What a call does that other goroutines can observe. *)
Inductive event : Type :=
| EvLock (m : mutexName)
| EvUnlock (m : mutexName)
| EvRLock (m : mutexName)
| EvRUnlock (m : mutexName)
| EvSend (ch : chanName)
| EvRecv (ch : chanName).

Definition chanName_eqb (a b : chanName) : bool :=
  match a, b with
  | N_writeRequestsCh, N_writeRequestsCh
  | N_writeResponsesCh, N_writeResponsesCh
  | N_stopWriteCh, N_stopWriteCh
  | N_readRequestsCh, N_readRequestsCh
  | N_readResponsesCh, N_readResponsesCh
  | N_stopReadCh, N_stopReadCh
  | N_stopReqCh, N_stopReqCh => true
  | _, _ => false
  end.

(** How a call, or one step of it, ends: it returns a value, it parks for
    ever on a channel or a mutex, or it panics. *)
Inductive result (A : Type) : Type :=
| Ret (a : A)
| Block
| Panic (msg : string).
Arguments Ret {A}.
Arguments Block {A}.
Arguments Panic {A}.

(** A method of [*Conn]: from the Conn it is called on to its outcome, the
    Conn it leaves behind and the events it performed, in order. *)
Definition M (A : Type) : Type := Conn -> result A * Conn * list event.

Definition ret {A} (a : A) : M A := fun c => (Ret a, c, []).

Definition bind {A B} (m : M A) (f : A -> M B) : M B := fun c =>
  match m c with
  | (Ret a, c1, t1) => let '(r, c2, t2) := f a c1 in (r, c2, t1 ++ t2)
  | (Block, c1, t1) => (Block, c1, t1)
  | (Panic s, c1, t1) => (Panic s, c1, t1)
  end.

Definition panic {A} (msg : string) : M A := fun c => (Panic msg, c, []).

(** [defer d; body]: the deferred call runs when the body returns and when
    it panics, not when it parks. *)
Definition defer {A} (d : M unit) (body : M A) : M A := fun c =>
  match body c with
  | (Block, c1, t1) => (Block, c1, t1)
  | (r, c1, t1) =>
      match d c1 with
      | (Ret _, c2, t2) => (r, c2, t1 ++ t2)
      | (Block, c2, t2) => (Block, c2, t1 ++ t2)
      | (Panic s, c2, t2) => (Panic s, c2, t1 ++ t2)
      end
  end.

Declare Scope conn_scope.
Delimit Scope conn_scope with conn.
Notation "x <- m ;; k" := (bind m (fun x => k))
  (at level 61, m at next level, right associativity) : conn_scope.
Notation "' pat <- m ;; k" := (bind m (fun x => match x with pat => k end))
  (at level 61, pat pattern, m at next level, right associativity) : conn_scope.
Notation "m ;; k" := (bind m (fun _ => k))
  (at level 61, right associativity) : conn_scope.
Local Open Scope conn_scope.

Definition outcome {A} (r : result A * Conn * list event) : result A := fst (fst r).
Definition after {A} (r : result A * Conn * list event) : Conn := snd (fst r).
Definition events {A} (r : result A * Conn * list event) : list event := snd r.

(** ** Mutexes and channels *)

Module RW.
(** [Lock] waits until no writer and no reader holds the mutex. *)
Definition Lock (m : RWMutex) : result RWMutex :=
  if writer m || negb (readers m =? 0)%nat then Block
  else Ret {| writer := true; readers := 0 |}.

Definition Unlock (m : RWMutex) : result RWMutex :=
  if writer m then Ret {| writer := false; readers := readers m |}
  else Panic "sync: Unlock of unlocked RWMutex".

(** [RLock] waits while a writer holds the mutex. *)
Definition RLock (m : RWMutex) : result RWMutex :=
  if writer m then Block
  else Ret {| writer := false; readers := S (readers m) |}.

Definition RUnlock (m : RWMutex) : result RWMutex :=
  match readers m with
  | O => Panic "sync: RUnlock of unlocked RWMutex"
  | S k => Ret {| writer := writer m; readers := k |}
  end.

Definition free (m : RWMutex) : Prop := writer m = false /\ readers m = 0%nat.
End RW.

Module Chan.
Section Ops.
Context {A : Type}.

(** [ch <- v]: panics on a closed channel; hands the value to a parked
    receiver if there is one; else buffers it if there is room; else
    parks. *)
Definition send (v : A) (ch : chan A) : result (chan A) :=
  if chclosed ch then Panic "send on closed channel"
  else match recvq ch with
       | S k => Ret (mk_chan (buf ch) (cap ch) (sendq ch) k false)
       | O =>
           if (List.length (buf ch) <? cap ch)%nat
           then Ret (mk_chan (buf ch ++ [v]) (cap ch) (sendq ch) 0 false)
           else Block
       end.

(** [v, ok := <-ch]: on a closed channel with nothing buffered, the zero
    value and [ok = false]; else the oldest value, a parked sender's
    value moving up; else parks. *)
Definition recv (zero : A) (ch : chan A) : result (A * bool * chan A) :=
  if chclosed ch && (List.length (buf ch) =? 0)%nat then Ret (zero, false, ch)
  else match sendq ch, buf ch with
       | s :: ss, [] =>
           Ret (s, true, mk_chan [] (cap ch) ss (recvq ch) (chclosed ch))
       | s :: ss, v :: q =>
           Ret (v, true, mk_chan (q ++ [s]) (cap ch) ss (recvq ch) (chclosed ch))
       | [], v :: q =>
           Ret (v, true, mk_chan q (cap ch) [] (recvq ch) (chclosed ch))
       | [], [] => Block
       end.

(** Another goroutine sends [v]: the value is buffered if there is
    room, and waits with its sender otherwise. *)
Definition placed (v : A) (ch : chan A) : chan A :=
  if (List.length (buf ch) <? cap ch)%nat
  then mk_chan (buf ch ++ [v]) (cap ch) (sendq ch) (recvq ch) (chclosed ch)
  else mk_chan (buf ch) (cap ch) (sendq ch ++ [v]) (recvq ch) (chclosed ch).

(** The values a channel holds for its receivers, oldest first. *)
Definition pending (ch : chan A) : list A := buf ch ++ sendq ch.

(** A receive on [ch] reports the channel closed. *)
Definition drained (ch : chan A) : Prop := chclosed ch = true /\ buf ch = [].

(** A send on [ch] completes at once. *)
Definition accepts (ch : chan A) : Prop :=
  chclosed ch = false /\ (0 < recvq ch \/ List.length (buf ch) < cap ch)%nat.

(** The runtime's invariant: senders park only when the buffer is full
    and the channel is open and no receiver waits. *)
Definition wf (ch : chan A) : Prop :=
  (List.length (buf ch) <= cap ch)%nat /\
  (sendq ch <> [] -> List.length (buf ch) = cap ch /\ chclosed ch = false).
End Ops.
End Chan.

(** References to the fields the methods lock, send on and receive from. *)
Record mutexRef : Type := mk_mutexRef {
  mu_name : mutexName;
  mu_get : Conn -> RWMutex;
  mu_set : RWMutex -> Conn -> Conn
}.

Record chanRef (A : Type) : Type := mk_chanRef {
  ch_name : chanName;
  ch_get : Conn -> chan A;
  ch_set : chan A -> Conn -> Conn
}.
Arguments mk_chanRef {A}.
Arguments ch_name {A}.
Arguments ch_get {A}.
Arguments ch_set {A}.

Module Mu.
Definition closedMutex : mutexRef :=
  mk_mutexRef N_closedMutex closedMutex set_closedMutex.
End Mu.

Module Ch.
Definition writeRequestsCh := mk_chanRef N_writeRequestsCh writeRequestsCh set_writeRequestsCh.
Definition writeResponsesCh := mk_chanRef N_writeResponsesCh writeResponsesCh set_writeResponsesCh.
Definition stopWriteCh := mk_chanRef N_stopWriteCh stopWriteCh set_stopWriteCh.
Definition readRequestsCh := mk_chanRef N_readRequestsCh readRequestsCh set_readRequestsCh.
Definition readResponsesCh := mk_chanRef N_readResponsesCh readResponsesCh set_readResponsesCh.
Definition stopReadCh := mk_chanRef N_stopReadCh stopReadCh set_stopReadCh.
Definition stopReqCh := mk_chanRef N_stopReqCh stopReqCh set_stopReqCh.
End Ch.

(** One mutex operation on a field of the Conn. *)
Definition on_mutex (op : RWMutex -> result RWMutex) (ev : mutexName -> event)
    (m : mutexRef) : M unit := fun c =>
  match op (mu_get m c) with
  | Ret m' => (Ret tt, mu_set m m' c, [ev (mu_name m)])
  | Block => (Block, c, [])
  | Panic s => (Panic s, c, [])
  end.

Definition Lock : mutexRef -> M unit := on_mutex RW.Lock EvLock.
Definition Unlock : mutexRef -> M unit := on_mutex RW.Unlock EvUnlock.
Definition RLock : mutexRef -> M unit := on_mutex RW.RLock EvRLock.
Definition RUnlock : mutexRef -> M unit := on_mutex RW.RUnlock EvRUnlock.

(** [c.ch <- v] *)
Definition send {A} (r : chanRef A) (v : A) : M unit := fun c =>
  match Chan.send v (ch_get r c) with
  | Ret ch' => (Ret tt, ch_set r ch' c, [EvSend (ch_name r)])
  | Block => (Block, c, [])
  | Panic s => (Panic s, c, [])
  end.

(** [v, ok := <-c.ch] *)
Definition recv {A} (r : chanRef A) (zero : A) : M (A * bool) := fun c =>
  match Chan.recv zero (ch_get r c) with
  | Ret (v, ok, ch') => (Ret (v, ok), ch_set r ch' c, [EvRecv (ch_name r)])
  | Block => (Block, c, [])
  | Panic s => (Panic s, c, [])
  end.

Definition load_closed : M bool := fun c => (Ret (closed c), c, []).
Definition store_closed (v : bool) : M unit := fun c => (Ret tt, set_closed v c, []).

(** ** The methods of conn_intf.go *)

(** LocalAddr() is not implemented (lines 131-134). *)
Definition LocalAddr : M string := panic "LocalAddr() not implemented".

(** RemoteAddr() is not implemented (lines 136-139). *)
Definition RemoteAddr : M string := panic "RemoteAddr() not implemented".

(** Close (lines 169-180). *)
Definition Close : M error :=
  Lock Mu.closedMutex ;;
  defer (Unlock Mu.closedMutex)
    (is_closed <- load_closed ;;
     (if negb is_closed then
        send Ch.stopReadCh iface_nil ;;
        send Ch.stopWriteCh iface_nil ;;
        send Ch.stopReqCh iface_nil ;;
        store_closed true
      else ret tt) ;;
     ret err_nil).

(** isClosed (lines 182-186). *)
Definition isClosed : M bool :=
  RLock Mu.closedMutex ;;
  defer (RUnlock Mu.closedMutex) load_closed.

(** SetDeadline, SetReadDeadline and SetWriteDeadline are unimplemented
    (lines 188-201); [t] is the [time.Time] argument. *)
Definition SetDeadline (t : Z) : M error := panic "SetDeadline not implemented".
Definition SetReadDeadline (t : Z) : M error := panic "SetReadDeadline not implemented".
Definition SetWriteDeadline (t : Z) : M error := panic "SetWriteDeadline not implemented".

(** [Write] and [Read] hand the byte slice to [submitWrite] and
    [submitRead], which conn_intf.go calls but does not define: they are
    parameters here. *)
Section ReadWrite.
Variable submitWrite : list byte -> M bool.
Variable submitRead : list byte -> M bool.

(** The accepted branch of [Write] (lines 144-149): wait for the response. *)
Definition awaitWrite : M (Z * error) :=
  '(res, ok) <- recv Ch.writeResponsesCh rwResponse_zero ;;
  if negb ok then ret (0%Z, io_EOF)
  else ret (n res, err res).

(** Write (lines 141-153). *)
Definition Write (b : list byte) : M (Z * error) :=
  accepted <- submitWrite b ;;
  if accepted then awaitWrite
  else ret (0%Z, io_EOF).

(** The accepted branch of [Read] (lines 158-163). *)
Definition awaitRead : M (Z * error) :=
  '(res, ok) <- recv Ch.readResponsesCh rwResponse_zero ;;
  if negb ok then ret (0%Z, io_EOF)
  else ret (n res, err res).

(** Read (lines 155-167). *)
Definition Read (b : list byte) : M (Z * error) :=
  accepted <- submitRead b ;;
  if accepted then awaitRead
  else ret (0%Z, io_EOF).
End ReadWrite.

(** Modelled from the spec: the function that fills in an unset Config is
    called by the Conn's factory and is not part of conn_intf.go.  The spec
    gives [IdleInterval] the default 15 milliseconds and [IdleTimeout] the
    default 70 seconds; the Config's own comments say the same.  A field the
    caller left unset holds Go's zero value. *)
Definition initDefaults (cfg : Config) : Config :=
  {| IdleInterval :=
       if (IdleInterval cfg =? 0)%Z then defaultIdleInterval else IdleInterval cfg;
     IdleTimeout :=
       if (IdleTimeout cfg =? 0)%Z then defaultIdleTimeout else IdleTimeout cfg |}.

(** The header table of the spec's section on external interfaces, in the
    order it is written there. *)
Definition spec_header_table : list string :=
  ["X-HTTPConn-Id"; "X-HTTPConn-Dest-Addr"; "X-HTTPConn-Proxy-Host"; "X-HTTPConn-EOF"].

(** The header names of the program, in the same order. *)
Definition header_names : list string :=
  [X_HTTPCONN_ID; X_HTTPCONN_DEST_ADDR; X_HTTPCONN_PROXY_HOST; X_HTTPCONN_EOF].

(** ** Observations on traces *)

Definition is_send_on (ch : chanName) (e : event) : bool :=
  match e with
  | EvSend ch' => chanName_eqb ch ch'
  | _ => false
  end.

Definition is_send (e : event) : bool :=
  match e with
  | EvSend _ => true
  | _ => false
  end.

(** How many sends on [ch] a trace holds. *)
Definition sends_on (ch : chanName) (t : list event) : nat :=
  List.length (filter (is_send_on ch) t).

(** The channel sends of a trace, in order. *)
Definition sends (t : list event) : list event := filter is_send t.

(** Does the trace hold a send performed while a mutex is held?  [held]
    counts the locks taken and not yet released. *)
Fixpoint send_under_lock (held : nat) (t : list event) : bool :=
  match t with
  | [] => false
  | EvLock _ :: t' | EvRLock _ :: t' => send_under_lock (S held) t'
  | EvUnlock _ :: t' | EvRUnlock _ :: t' => send_under_lock (pred held) t'
  | EvSend _ :: t' => negb (held =? 0)%nat || send_under_lock held t'
  | EvRecv _ :: t' => send_under_lock held t'
  end.

(** ** Sample Conns *)

Definition open_chan {A} (capacity : nat) : chan A := mk_chan [] capacity [] 0 false.
Definition free_mutex : RWMutex := mk_RWMutex false 0.

(** An open Conn: unbuffered request and response channels, stop channels
    with room for one signal, nothing locked. *)
Definition open_conn : Conn :=
  mk_Conn "example.com:443" (mk_Config 0%Z 0%Z) "conn-1"
    (open_chan 0) (open_chan 0) (open_chan 1) false free_mutex
    (open_chan 0) (open_chan 0) (open_chan 1) false free_mutex
    (open_chan 1) false free_mutex 0%Z free_mutex false free_mutex.

(** A submission helper for the sample runs: it refuses once the Conn is
    closed and accepts otherwise. *)
Definition submit_unless_closed (b : list byte) : M bool :=
  is_closed <- isClosed ;;
  ret (negb is_closed).

(** ** Sequences of calls on one Conn *)

Inductive call : Type :=
| CallWrite (b : list byte)
| CallRead (b : list byte)
| CallClose
| CallIsClosed.

(** What a call returns. *)
Inductive value : Type :=
| VCount (k : Z) (e : error)
| VError (e : error)
| VBool (f : bool).

Section Calls.
Variable submitWrite : list byte -> M bool.
Variable submitRead : list byte -> M bool.

Definition run_call (k : call) : M value :=
  match k with
  | CallWrite b => '(cnt, e) <- Write submitWrite b ;; ret (VCount cnt e)
  | CallRead b => '(cnt, e) <- Read submitRead b ;; ret (VCount cnt e)
  | CallClose => e <- Close ;; ret (VError e)
  | CallIsClosed => f <- isClosed ;; ret (VBool f)
  end.

(** A caller makes the calls one after the other; a call that parks or
    panics ends the run. *)
Fixpoint run_calls (ks : list call) : M (list value) :=
  match ks with
  | [] => ret []
  | k :: ks' =>
      v <- run_call k ;;
      vs <- run_calls ks' ;;
      ret (v :: vs)
  end.

(** The signals the [Close] calls of a run send on the channel [ch]. *)
Fixpoint close_signals (ch : chanName) (ks : list call) (c : Conn) : nat :=
  match ks with
  | [] => 0
  | k :: ks' =>
      let r := run_call k c in
      (match k with
       | CallClose => sends_on ch (events r)
       | _ => 0
       end
       + match outcome r with
         | Ret _ => close_signals ch ks' (after r)
         | _ => 0
         end)%nat
  end.

(** The caller's counterpart: the write processor, a goroutine of its own
    whose code is not part of conn_intf.go, sends responses on the
    write-responses channel.  Nothing is assumed on which responses it
    sends or when.  A send on a closed channel panics in the sender and
    leaves the channel as it was. *)
Definition place (r : rwResponse) (ch : chan rwResponse) : chan rwResponse :=
  if chclosed ch then ch else Chan.placed r ch.

Definition env_place (rs : list rwResponse) : M unit := fun c =>
  (Ret tt, set_writeResponsesCh (fold_left (fun ch r => place r ch) rs (writeResponsesCh c)) c, []).

(** [Write b] with the write processor placing the responses [rs] between
    the submission and the receive. *)
Definition Write_served (b : list byte) (rs : list rwResponse) : M (Z * error) :=
  accepted <- submitWrite b ;;
  env_place rs ;;
  if accepted then awaitWrite
  else ret (0%Z, io_EOF).

Fixpoint run_writes (items : list (list byte * list rwResponse)) : M (list (Z * error)) :=
  match items with
  | [] => ret []
  | (b, rs) :: items' =>
      v <- Write_served b rs ;;
      vs <- run_writes items' ;;
      ret (v :: vs)
  end.

(** Every submission of the run is accepted, and at every receive the
    channel holds a response. *)
Fixpoint all_served (items : list (list byte * list rwResponse)) (c : Conn) : Prop :=
  match items with
  | [] => True
  | (b, rs) :: items' =>
      outcome (submitWrite b c) = Ret true /\
      let c2 := after (env_place rs (after (submitWrite b c))) in
      Chan.pending (writeResponsesCh c2) <> [] /\
      all_served items' (after (awaitWrite c2))
  end.
End Calls.

Definition pair_of (r : rwResponse) : Z * error := (n r, err r).

(** The stop channel after [Close] has signalled it: the signal went to a
    parked receiver, or into the buffer. *)
Definition signalled (ch : chan iface) : chan iface :=
  match recvq ch with
  | S k => mk_chan (buf ch) (cap ch) (sendq ch) k false
  | O => mk_chan (buf ch ++ [iface_nil]) (cap ch) (sendq ch) 0 false
  end.

(** The Conn a first [Close] leaves behind. *)
Definition closed_conn (c : Conn) : Conn :=
  set_closed true
    (set_stopReqCh (signalled (stopReqCh c))
       (set_stopWriteCh (signalled (stopWriteCh c))
          (set_stopReadCh (signalled (stopReadCh c)) c))).

(** [Close] can run to its end on [c]: nobody holds the closed-flag mutex
    and each stop channel takes a signal at once. *)
Definition can_close (c : Conn) : Prop :=
  RW.free (closedMutex c) /\
  Chan.accepts (stopReadCh c) /\
  Chan.accepts (stopWriteCh c) /\
  Chan.accepts (stopReqCh c).

(** What the properties ask of the submission helpers, which live outside
    conn_intf.go: that they leave the closed flag alone, that they leave
    the closed-flag mutex as they found it when they return, and that they
    leave the response channel to the caller. *)
Definition leaves_closed (submit : list byte -> M bool) : Prop :=
  forall b c, closed (after (submit b c)) = closed c.

Definition leaves_closedMutex (submit : list byte -> M bool) : Prop :=
  forall b c v, outcome (submit b c) = Ret v ->
    closedMutex (after (submit b c)) = closedMutex c.

Definition leaves_writeResponsesCh (submit : list byte -> M bool) : Prop :=
  forall b c, writeResponsesCh (after (submit b c)) = writeResponsesCh c.

Definition stop_channels : list chanName := [N_stopReadCh; N_stopWriteCh; N_stopReqCh].

(** A submission helper that accepts every slice. *)
Definition submit_always (b : list byte) : M bool := ret true.

(** A closed channel with nothing left in it. *)
Definition closed_chan {A} : chan A := mk_chan [] 0 [] 0 true.

(** [open_conn] after [Close], once the processors have stopped and closed
    the two response channels. *)
Definition shut_conn : Conn :=
  set_readResponsesCh closed_chan
    (set_writeResponsesCh closed_chan (closed_conn open_conn)).

(** [open_conn] with the responses [rs] waiting on the write-responses
    channel. *)
Definition conn_with_responses (rs : list rwResponse) : Conn :=
  after (env_place rs open_conn).

(** [open_conn] with the write processor's stop channel closed. *)
Definition conn_stop_closed : Conn := set_stopWriteCh closed_chan open_conn.

(** [open_conn] with an earlier signal still sitting in the request
    issuer's stop channel, which has room for one. *)
Definition conn_stop_full : Conn :=
  set_stopReqCh (mk_chan [iface_nil] 1 [] 0 false) open_conn.

(** The three signals of [Close], in the order it sends them. *)
Definition stop_signals : list event :=
  [EvSend N_stopReadCh; EvSend N_stopWriteCh; EvSend N_stopReqCh].

(** The channel a receive leaves behind; a receive that parks leaves it as
    it was. *)
Definition after_recv {A} (zero : A) (ch : chan A) : chan A :=
  match Chan.recv zero ch with
  | Ret (_, _, ch') => ch'
  | _ => ch
  end.

(** ** Package nattraversal: the traversal id in front of a message

    The four functions on [message] (nattraversal, "type message []byte")
    and [idToBytes].  A Go slice is modelled with its capacity: the
    elements in view, and the rest of the backing array behind them, which
    a reslice can bring into view. *)

Module nattraversal.

Record slice : Type := mk_slice { elems : list byte; spare : list byte }.

Definition backing (s : slice) : list byte := elems s ++ spare s.
Definition len (s : slice) : nat := List.length (elems s).
Definition capacity (s : slice) : nat := List.length (backing s).

(** The view of the first [k] elements of the array [arr]. *)
Definition view (k : nat) (arr : list byte) : slice :=
  mk_slice (firstn k arr) (skipn k arr).

(** [make([]byte, k)] *)
Definition make (k : nat) : slice := mk_slice (repeat x00 k) [].

(** Sequencing of steps that may panic. *)
Definition and_then {A B} (r : result A) (f : A -> result B) : result B :=
  match r with
  | Ret a => f a
  | Block => Block
  | Panic msg => Panic msg
  end.

(** [s[lo:hi]]: Go requires [0 <= lo <= hi <= cap(s)] and panics
    otherwise (the runtime's message also gives the numbers). *)
Definition reslice (s : slice) (lo hi : nat) : result slice :=
  if (lo <=? hi)%nat && (hi <=? capacity s)%nat
  then Ret (mk_slice (firstn (hi - lo) (skipn lo (backing s))) (skipn hi (backing s)))
  else Panic "slice bounds out of range".

(** uint32 arithmetic and the conversions between byte and uint32. *)
Definition u32 (z : Z) : Z := (z mod 2 ^ 32)%Z.
Definition byte_to_Z (b : byte) : Z := Z.of_N (Byte.to_N b).
Definition byte_of_Z (z : Z) : byte :=
  match Byte.of_N (Z.to_N (z mod 256)) with
  | Some b => b
  | None => x00
  end.

(** [binary.LittleEndian.Uint32], of Go's encoding/binary: after the bounds
    check [_ = b[3]],
    [uint32(b[0]) | uint32(b[1])<<8 | uint32(b[2])<<16 | uint32(b[3])<<24]. *)
Definition Uint32 (b : slice) : result Z :=
  match elems b with
  | b0 :: b1 :: b2 :: b3 :: _ =>
      Ret (Z.lor (Z.lor (Z.lor (byte_to_Z b0)
                               (u32 (Z.shiftl (byte_to_Z b1) 8)))
                        (u32 (Z.shiftl (byte_to_Z b2) 16)))
                 (u32 (Z.shiftl (byte_to_Z b3) 24)))
  | _ => Panic "index out of range"
  end.

(** [binary.LittleEndian.PutUint32]: after the same bounds check,
    [b[0] = byte(v); b[1] = byte(v >> 8); b[2] = byte(v >> 16);
    b[3] = byte(v >> 24)].  The slice returned is [b] after the writes. *)
Definition PutUint32 (b : slice) (v : Z) : result slice :=
  match elems b with
  | _ :: _ :: _ :: _ :: rest =>
      Ret (mk_slice (byte_of_Z v :: byte_of_Z (Z.shiftr v 8) ::
                     byte_of_Z (Z.shiftr v 16) :: byte_of_Z (Z.shiftr v 24) :: rest)
                    (spare b))
  | _ => Panic "index out of range"
  end.

Definition message : Type := slice.

(** setTraversalId.  [msg[:4]] shares [msg]'s backing array from its first
    element on, so the writes land in [msg]; the result is [msg] as its
    holder sees it after the call. *)
Definition setTraversalId (msg : message) (id : Z) : result message :=
  and_then (reslice msg 0 4) (fun b =>
  and_then (PutUint32 b id) (fun b' =>
  Ret (view (len msg) (backing b')))).

(** getTraversalId *)
Definition getTraversalId (msg : message) : result Z :=
  and_then (reslice msg 0 4) Uint32.

(** getData: [msg[4:]], the upper bound being [len(msg)]. *)
Definition getData (msg : message) : result slice :=
  reslice msg 4 (len msg).

(** idToBytes *)
Definition idToBytes (id : Z) : result slice :=
  let b := make 4 in
  and_then (reslice b 0 4) (fun b4 =>
  and_then (PutUint32 b4 id) (fun b4' =>
  Ret (view (len b) (backing b4')))).

(** The values of the type uint32. *)
Definition is_uint32 (z : Z) : Prop := (0 <= z < 2 ^ 32)%Z.

(** The four bytes [PutUint32] writes for [v], lowest first, and the value
    [Uint32] reads from four bytes. *)
Definition id_bytes (v : Z) : list byte :=
  [byte_of_Z v; byte_of_Z (Z.shiftr v 8); byte_of_Z (Z.shiftr v 16);
   byte_of_Z (Z.shiftr v 24)].

Definition bytes_id (a0 a1 a2 a3 : byte) : Z :=
  (byte_to_Z a0 + byte_to_Z a1 * 2 ^ 8 + byte_to_Z a2 * 2 ^ 16 +
   byte_to_Z a3 * 2 ^ 24)%Z.


(** *** The waddell connections and the peers

    What the package keeps in its global variables, and the functions on
    it.  Objects of the libraries it uses (a [net.Conn], a
    [waddell.Client], a [natty.Traversal]) are handles; what the package
    does to them is recorded as actions, in order. *)

Definition PeerId : Type := Z.

Record WaddellConn : Type := mk_WaddellConn { client : nat; conn : nat }.

(** The two fields of a [waddell.Message] the package reads. *)
Record Message : Type := mk_Message { From : PeerId; Body : slice }.

Record Peer : Type := mk_Peer {
  id : PeerId;
  traversals : Z -> option nat;
  traversalsMutex : bool
}.

(** The global variables [WaddellConns], [peers] and [peersMutex], and the
    traversal that [natty.Answer] hands out next: each call gives a new
    one. *)
Record world : Type := mk_world {
  WaddellConns : string -> option WaddellConn;
  peers : PeerId -> option Peer;
  peersMutex : bool;
  natty_next : nat
}.

Inductive action : Type :=
| ActLog (format : string)
| ActConnClose (c : nat)
| ActNattyAnswer (t : nat)
| ActGo (task : string) (t : nat)
| ActMsgIn (t : nat) (payload : list byte)
| ActSendPieces (c : nat) (to : PeerId) (pieces : list (list byte))
| ActReady.

(** Go maps: [m[k] = v] and [delete(m, k)]; a lookup is an application. *)
Definition put {K V} (eqb : K -> K -> bool) (k : K) (v : V) (m : K -> option V)
    : K -> option V :=
  fun k' => if eqb k k' then Some v else m k'.

Definition delete {K V} (eqb : K -> K -> bool) (k : K) (m : K -> option V)
    : K -> option V :=
  fun k' => if eqb k k' then None else m k'.

Definition is_nil (e : error) : bool :=
  match e with
  | err_nil => true
  | _ => false
  end.

(** Equality of error values.  Go compares the sentinels by identity; an
    error that is neither nil nor [io.EOF] is told apart by its text. *)
Definition error_eqb (a b : error) : bool :=
  match a, b with
  | err_nil, err_nil => true
  | io_EOF, io_EOF => true
  | err_other x, err_other y => String.eqb x y
  | _, _ => false
  end.

Definition io_ErrUnexpectedEOF : error := err_other "unexpected EOF".

(** ConnectToWaddell.  [dial] is what [net.DialTimeout] returns and
    [connect] what [waddell.Connect] returns for a connection; the result
    is the pair [(err, wc)] in the order the function declares it. *)
Definition ConnectToWaddell (dial : nat * error) (connect : nat -> nat * error)
    (waddellAddr : string) (w : world)
    : (error * option WaddellConn) * world * list action :=
  let (c, err) := dial in
  if negb (is_nil err) then ((err, None), w, [])
  else
    let (cl, err) := connect c in
    if negb (is_nil err)
    then ((err, None), w, [ActLog "Unable to connect to waddell: %s"])
    else
      let wc := mk_WaddellConn cl c in
      ((err, Some wc),
       mk_world (put String.eqb waddellAddr wc (WaddellConns w)) (peers w)
                (peersMutex w) (natty_next w),
       [ActLog "Connected to Waddell!!! Id is: %s"]).

(** CloseWaddellConn *)
Definition CloseWaddellConn (waddellAddr : string) (w : world) : world * list action :=
  match WaddellConns w waddellAddr with
  | Some wc =>
      (mk_world (delete String.eqb waddellAddr (WaddellConns w)) (peers w)
                (peersMutex w) (natty_next w),
       [ActLog "Closing WaddellConn"; ActConnClose (conn wc);
        ActLog "Closed WaddellConn"])
  | None => (w, [])
  end.

(** (p *Peer) answer.  The result carries the peer as it is after the
    call and the next traversal of natty.  Every way out but parking on
    the mutex runs the deferred unlock. *)
Definition Peer_answer (p : Peer) (wc : nat) (wm : Message) (next : nat)
    : result unit * Peer * nat * list action :=
  if traversalsMutex p then (Block, p, next, [])
  else
    let msg := Body wm in
    match getTraversalId msg with
    | Ret traversalId =>
        let '(t, trs, next', begun) :=
          match traversals p traversalId with
          | Some t => (t, traversals p, next, [])
          | None =>
              (next, put Z.eqb traversalId next (traversals p), S next,
               [ActLog "Answering traversal: %d"; ActNattyAnswer next;
                ActGo "send" next; ActGo "receive" next])
          end in
        match getData msg with
        | Ret _ =>
            match getData msg with
            | Ret data =>
                (Ret tt, mk_Peer (id p) trs false, next',
                 begun ++ [ActLog "Received for traversal %d: %s";
                             ActMsgIn t (elems data)])
            | Block => (Block, mk_Peer (id p) trs true, next', begun)
            | Panic m => (Panic m, mk_Peer (id p) trs false, next', begun)
            end
        | Block => (Block, mk_Peer (id p) trs true, next', begun)
        | Panic m => (Panic m, mk_Peer (id p) trs false, next', begun)
        end
    | Block => (Block, mk_Peer (id p) (traversals p) true, next, [])
    | Panic m => (Panic m, p, next, [])
    end.

(** answer.  [peers] holds pointers: the peer found or made is the one
    [Peer_answer] works on, so what that does to it is written back. *)
Definition answer (wc : nat) (wm : Message) (w : world)
    : result unit * world * list action :=
  if peersMutex w then (Block, w, [])
  else
    let p :=
      match peers w (From wm) with
      | Some p => p
      | None => mk_Peer (From wm) (fun _ => None) false
      end in
    let '(r, p', next', acts) := Peer_answer p wc wm (natty_next w) in
    match r with
    | Block =>
        (Block, mk_world (WaddellConns w) (put Z.eqb (From wm) p' (peers w))
                         true next', acts)
    | _ =>
        (r, mk_world (WaddellConns w) (put Z.eqb (From wm) p' (peers w))
                     false next', acts)
    end.

(** How a loop of the package ends: it returns, it spins without end, it
    is waiting for an input that has not come (a message from [Receive],
    natty's next message), it is parked on a mutex or a channel, it has
    ended the process with [log.Fatalf], or it panics. *)
Inductive ending : Type :=
| Returned
| Spinning
| Waiting
| Parked
| Exited
| Panicked (msg : string).

(** ReceiveOffers.  [receives] are the results [(wm, err)] of the calls to
    [wc.client.Receive], in order. *)
Fixpoint ReceiveOffers (waddellAddr : string) (receives : list (Message * error))
    (w : world) : ending * world * list action :=
  match WaddellConns w waddellAddr with
  | None => (Spinning, w, [])
  | Some wc =>
      match receives with
      | [] => (Waiting, w, [])
      | (wm, err) :: rest =>
          if negb (is_nil err) then
            if negb (error_eqb err io_EOF) || negb (error_eqb err io_ErrUnexpectedEOF)
            then (Returned, w, [ActLog "Unable to read message from waddell: %s"])
            else
              let '(e, w', acts) := ReceiveOffers waddellAddr rest w in
              (e, w', ActLog "Unable to read message from waddell: %s" :: acts)
          else
            let msg := Body wm in
            match reslice msg 4 (len msg) with
            | Ret _ =>
                match answer (client wc) wm w with
                | (Ret _, w1, acts1) =>
                    let '(e, w', acts) := ReceiveOffers waddellAddr rest w1 in
                    (e, w',
                     [ActLog "Peer ID is %s"; ActLog "Received waddell message: %s"]
                       ++ acts1 ++ acts)
                | (Block, w1, acts1) =>
                    (Parked, w1,
                     [ActLog "Peer ID is %s"; ActLog "Received waddell message: %s"]
                       ++ acts1)
                | (Panic m, w1, acts1) =>
                    (Panicked m, w1,
                     [ActLog "Peer ID is %s"; ActLog "Received waddell message: %s"]
                       ++ acts1)
                end
            | Block => (Parked, w, [ActLog "Peer ID is %s"])
            | Panic m => (Panicked m, w, [ActLog "Peer ID is %s"])
            end
      end
  end.

(** The constant [Ready], as bytes. *)
Definition Ready : list byte := [x52; x65; x61; x64; x79].

Definition bytes_eqb (a b : list byte) : bool :=
  if list_eq_dec Byte.byte_eq_dec a b then true else false.

(** Put [acts] in front of what the rest of a loop does. *)
Definition and_go_on {S} (acts : list action) (r : ending * S * list action)
    : ending * S * list action :=
  let '(e, s, more) := r in (e, s, acts ++ more).

(** sendMessages.  [outs] are the results [(msgOut, done)] of the calls to
    [t.NextMsgOut], in order; the state threaded through the loop is
    empty. *)
Fixpoint sendMessages (wc : WaddellConn) (outs : list (list byte * bool))
    (peerId : PeerId) (traversalId : Z) : ending * unit * list action :=
  match outs with
  | [] => (Waiting, tt, [])
  | (msgOut, done) :: rest =>
      if done then (Returned, tt, [])
      else
        match idToBytes traversalId with
        | Ret hdr =>
            and_go_on [ActLog "Sending %s";
                       ActSendPieces (client wc) peerId [elems hdr; msgOut]]
                      (sendMessages wc rest peerId traversalId)
        | Block => (Parked, tt, [ActLog "Sending %s"])
        | Panic m => (Panicked m, tt, [ActLog "Sending %s"])
        end
  end.

(** receiveMessages.  [receives] are the results of [wc.client.Receive],
    [t] is the traversal, and the state threaded through the loop is the
    channel [serverReady]. *)
Fixpoint receiveMessages (wc : WaddellConn) (receives : list (Message * error))
    (t : nat) (traversalId : Z) (serverReady : chan bool)
    : ending * chan bool * list action :=
  match receives with
  | [] => (Waiting, serverReady, [])
  | (wm, err) :: rest =>
      if negb (is_nil err)
      then (Exited, serverReady, [ActLog "Unable to read message from waddell: %s"])
      else
        let msg := Body wm in
        match getTraversalId msg with
        | Ret v =>
            if negb (v =? traversalId)%Z then
              and_go_on [ActLog "Got message for unknown traversal %d, skipping"]
                        (receiveMessages wc rest t traversalId serverReady)
            else
              match getData msg with
              | Ret data =>
                  if bytes_eqb Ready (elems data) then
                    match Chan.send true serverReady with
                    | Ret ch' =>
                        and_go_on [ActLog "Received: %s"; ActReady]
                                  (receiveMessages wc rest t traversalId ch')
                    | Block => (Parked, serverReady, [ActLog "Received: %s"])
                    | Panic m => (Panicked m, serverReady, [ActLog "Received: %s"])
                    end
                  else
                    and_go_on [ActLog "Received: %s"; ActMsgIn t (elems data)]
                              (receiveMessages wc rest t traversalId serverReady)
              | Block => (Parked, serverReady, [])
              | Panic m => (Panicked m, serverReady, [])
              end
        | Block => (Parked, serverReady, [])
        | Panic m => (Panicked m, serverReady, [])
        end
  end.

(** The traversal registered for a sender and a traversal id. *)
Definition traversal_of (w : world) (from : PeerId) (v : Z) : option nat :=
  match peers w from with
  | Some p => traversals p v
  | None => None
  end.

(** The message whose bytes are the encoded id [v] and then [payload]. *)
Definition framed (from : PeerId) (v : Z) (payload : list byte) : Message :=
  mk_Message from (mk_slice (id_bytes v ++ payload) []).

(** [NumUDPTestPackets], and the channel [serverReady] as the package
    makes it. *)
Definition NumUDPTestPackets : nat := 10.
Definition serverReady : chan bool := mk_chan [] NumUDPTestPackets [] 0 false.

(** The readiness signals sent. *)
Definition signals (acts : list action) : nat :=
  List.length (flat_map (fun a => match a with ActReady => [tt] | _ => [] end) acts).

(** The payloads handed to [MsgIn], in order. *)
Definition payloads (acts : list action) : list (nat * list byte) :=
  flat_map (fun a => match a with ActMsgIn t d => [(t, d)] | _ => [] end) acts.

(** The traversals started. *)
Definition started (acts : list action) : list nat :=
  flat_map (fun a => match a with ActNattyAnswer t => [t] | _ => [] end) acts.

(** The connections closed. *)
Definition closes (acts : list action) : list nat :=
  flat_map (fun a => match a with ActConnClose c => [c] | _ => [] end) acts.

(** Nobody holds a mutex. *)
Definition mutexes_free (w : world) : Prop :=
  peersMutex w = false /\
  forall k p, peers w k = Some p -> traversalsMutex p = false.

(** A world with nothing in it. *)
Definition empty_world : world :=
  mk_world (fun _ => None) (fun _ => None) false 0.

(** The end of the receive goroutine that [Peer_answer] starts for a new
    traversal (the deferred function of lines 390-394): when
    [FiveTupleTimeout] has returned, it takes the peer's mutex and removes
    the traversal from the peer's map.  The goroutine runs on its own, at
    any time after the call that started it. *)
Definition forget_traversal (from : PeerId) (traversalId : Z) (w : world)
    : result unit * world :=
  match peers w from with
  | Some p =>
      if traversalsMutex p then (Block, w)
      else
        (Ret tt,
         mk_world (WaddellConns w)
                  (put Z.eqb from
                       (mk_Peer (id p) (delete Z.eqb traversalId (traversals p)) false)
                       (peers w))
                  (peersMutex w) (natty_next w))
  | None => (Ret tt, w)
  end.

End nattraversal.

(** The five mutexes of a Conn. *)
Definition mutexes (c : Conn) : RWMutex * RWMutex * RWMutex * RWMutex * RWMutex :=
  (closedMutex c, writeMutex c, readMutex c, requestMutex c, lastActivityMutex c).

(** ** Proof steps shared by the properties below *)

Ltac unfold_methods :=
  unfold Close, isClosed, awaitWrite, awaitRead, bind, defer, Lock, Unlock,
    RLock, RUnlock, on_mutex, send, recv, load_closed, store_closed, ret,
    outcome, after, events,
    RW.Lock, RW.Unlock, RW.RLock, RW.RUnlock, Chan.send, Chan.recv in *;
  simpl in *.

(** Case analysis on the innermost tests of the goal. *)
Ltac split_cases :=
  repeat match goal with
         | |- context [match ?x with _ => _ end] =>
             lazymatch x with
             | context [match _ with _ => _ end] => fail
             | _ => destruct x eqn:?; simpl in *
             end
         end.

(** * Properties *)

(** ** Constants *)

(** C8: the four header names of the program are exactly "X-HTTPConn-Id",
    "X-HTTPConn-Dest-Addr", "X-HTTPConn-Proxy-Host" and "X-HTTPConn-EOF",
    character for character the names of the spec's header table. *)
Theorem header_names_exact :
  X_HTTPCONN_ID = "X-HTTPConn-Id" /\
  X_HTTPCONN_DEST_ADDR = "X-HTTPConn-Dest-Addr" /\
  X_HTTPCONN_PROXY_HOST = "X-HTTPConn-Proxy-Host" /\
  X_HTTPCONN_EOF = "X-HTTPConn-EOF" /\
  header_names = spec_header_table /\
  NoDup header_names.
Proof.
  repeat split.
  repeat constructor; simpl; intuition discriminate.
Qed.

Lemma default_durations_in_range :
  (time.minInt64 <= defaultIdleInterval <= time.maxInt64)%Z /\
  (time.minInt64 <= defaultIdleTimeout <= time.maxInt64)%Z.
Proof. vm_compute. intuition discriminate. Qed.

(** C9: a Config that leaves [IdleInterval] and [IdleTimeout] unset gets
    exactly 15 milliseconds and exactly 70 seconds; both defaults are the
    stated numbers of nanoseconds and fit an int64 without wrapping, and a
    field that is set is kept. *)
Theorem defaults_when_unset :
  defaultIdleInterval = 15000000%Z /\
  defaultIdleTimeout = 70000000000%Z /\
  time.wrap defaultIdleInterval = (15 * time.Millisecond)%Z /\
  time.wrap defaultIdleTimeout = (70 * time.Second)%Z /\
  forall cfg : Config,
    (IdleInterval cfg = 0%Z ->
     IdleInterval (initDefaults cfg) = (15 * time.Millisecond)%Z) /\
    (IdleTimeout cfg = 0%Z ->
     IdleTimeout (initDefaults cfg) = (70 * time.Second)%Z) /\
    (IdleInterval cfg <> 0%Z -> IdleInterval (initDefaults cfg) = IdleInterval cfg) /\
    (IdleTimeout cfg <> 0%Z -> IdleTimeout (initDefaults cfg) = IdleTimeout cfg).
Proof.
  repeat split; try reflexivity; intro H; unfold initDefaults; simpl.
  - rewrite H. reflexivity.
  - rewrite H. reflexivity.
  - apply Z.eqb_neq in H. rewrite H. reflexivity.
  - apply Z.eqb_neq in H. rewrite H. reflexivity.
Qed.

Lemma defaults_when_unset_witness :
  IdleInterval (initDefaults (mk_Config 0%Z 0%Z)) = (15 * time.Millisecond)%Z /\
  IdleTimeout (initDefaults (mk_Config 0%Z 0%Z)) = (70 * time.Second)%Z.
Proof.
  destruct defaults_when_unset as (_ & _ & _ & _ & H).
  destruct (H (mk_Config 0%Z 0%Z)) as (Hi & Ht & _).
  split; [apply Hi | apply Ht]; reflexivity.
Defined.

(** ** The unimplemented methods *)

(** C4: whatever the state of the Conn and whatever the argument, a call to
    LocalAddr, RemoteAddr, SetDeadline, SetReadDeadline or SetWriteDeadline
    panics with a message naming the method; it never returns a value. *)
Theorem unimplemented_methods_panic (c : Conn) (t : Z) :
  outcome (LocalAddr c) = Panic "LocalAddr() not implemented" /\
  outcome (RemoteAddr c) = Panic "RemoteAddr() not implemented" /\
  outcome (SetDeadline t c) = Panic "SetDeadline not implemented" /\
  outcome (SetReadDeadline t c) = Panic "SetReadDeadline not implemented" /\
  outcome (SetWriteDeadline t c) = Panic "SetWriteDeadline not implemented" /\
  (forall a, outcome (LocalAddr c) <> Ret a) /\
  (forall a, outcome (RemoteAddr c) <> Ret a) /\
  (forall e, outcome (SetDeadline t c) <> Ret e) /\
  (forall e, outcome (SetReadDeadline t c) <> Ret e) /\
  (forall e, outcome (SetWriteDeadline t c) <> Ret e).
Proof.
  repeat split; intros; discriminate.
Qed.

(** ** Close and isClosed *)

Lemma free_Lock (m : RWMutex) :
  RW.free m -> RW.Lock m = Ret (mk_RWMutex true 0) /\ m = mk_RWMutex false 0.
Proof.
  destruct m as [w r]. unfold RW.free, RW.Lock. simpl.
  intros [-> ->]. split; reflexivity.
Qed.

Lemma accepts_send (ch : chan iface) :
  Chan.accepts ch -> Chan.send iface_nil ch = Ret (signalled ch).
Proof.
  unfold Chan.accepts, Chan.send, signalled. intros [-> Hroom].
  destruct (recvq ch) as [|k]; [|reflexivity].
  destruct Hroom as [Hr | Hb]; [lia|].
  apply Nat.ltb_lt in Hb. rewrite Hb. reflexivity.
Qed.

Lemma Close_when_closed (c : Conn) :
  closed c = true -> RW.free (closedMutex c) ->
  Close c = (Ret err_nil, c, [EvLock N_closedMutex; EvUnlock N_closedMutex]).
Proof.
  intros Hc Hf. apply free_Lock in Hf. destruct Hf as [Hl Hm].
  destruct c; simpl in *. subst. reflexivity.
Qed.

Lemma Close_when_open (c : Conn) :
  closed c = false -> can_close c ->
  Close c = (Ret err_nil, closed_conn c,
             [EvLock N_closedMutex; EvSend N_stopReadCh; EvSend N_stopWriteCh;
              EvSend N_stopReqCh; EvUnlock N_closedMutex]).
Proof.
  intros Hc (Hf & Hr & Hw & Hq).
  apply free_Lock in Hf. destruct Hf as [_ Hm].
  apply accepts_send in Hr, Hw, Hq.
  destruct c; simpl in *. subst.
  unfold Close, bind, defer, Lock, Unlock, on_mutex, send, load_closed,
    store_closed, ret. simpl.
  rewrite Hr. simpl. rewrite Hw. simpl. rewrite Hq. simpl. reflexivity.
Qed.

Lemma Close_returns_nil (c : Conn) (e : error) :
  outcome (Close c) = Ret e -> e = err_nil.
Proof.
  destruct c. unfold_methods. split_cases; intro H; congruence.
Qed.

Lemma Close_keeps_closed (c : Conn) :
  closed c = true -> closed (after (Close c)) = true.
Proof.
  destruct c. unfold_methods. intros ->. split_cases; reflexivity.
Qed.

Lemma Close_restores (c : Conn) (e : error) :
  outcome (Close c) = Ret e ->
  closed (after (Close c)) = true /\ closedMutex (after (Close c)) = closedMutex c.
Proof.
  destruct c as [? ? ? ? ? ? ? ? ? ? ? ? ? ? ? ? ? ? cl [w r]].
  unfold_methods. destruct w; [discriminate|]. destruct r; [|discriminate].
  destruct cl; simpl; split_cases; intro H; try discriminate; split; reflexivity.
Qed.

Lemma Close_sends_at_most_once (c : Conn) (ch : chanName) :
  (sends_on ch (events (Close c)) <= 1)%nat.
Proof.
  destruct c. unfold_methods. split_cases; destruct ch; unfold sends_on; simpl; lia.
Qed.

Lemma Close_closed_sends_nothing (c : Conn) :
  closed c = true -> sends (events (Close c)) = [].
Proof.
  destruct c. unfold_methods. intros ->. split_cases; reflexivity.
Qed.

Lemma Close_open_sends_once (c : Conn) (e : error) (ch : chanName) :
  closed c = false -> outcome (Close c) = Ret e -> In ch stop_channels ->
  sends_on ch (events (Close c)) = 1%nat.
Proof.
  destruct c. unfold_methods. intros -> H Hin.
  revert H. split_cases; intro H; try discriminate;
    destruct Hin as [<- | [<- | [<- | []]]]; reflexivity.
Qed.

Lemma sends_on_sends (ch : chanName) (t : list event) :
  sends t = [] -> sends_on ch t = 0%nat.
Proof.
  unfold sends, sends_on. induction t as [|e t IH]; [reflexivity|].
  simpl. destruct e; simpl; try (intro H; apply IH; exact H); discriminate.
Qed.

Lemma isClosed_restores (c : Conn) :
  closed (after (isClosed c)) = closed c /\
  sends (events (isClosed c)) = [] /\
  forall f, outcome (isClosed c) = Ret f ->
    f = closed c /\ after (isClosed c) = c.
Proof.
  destruct c as [? ? ? ? ? ? ? ? ? ? ? ? ? ? ? ? ? ? cl [w r]].
  unfold_methods. destruct w; simpl.
  - repeat split; discriminate.
  - repeat split; congruence.
Qed.

Lemma isClosed_returns (c : Conn) :
  writer (closedMutex c) = false -> isClosed c =
    (Ret (closed c), c, [EvRLock N_closedMutex; EvRUnlock N_closedMutex]).
Proof.
  destruct c as [? ? ? ? ? ? ? ? ? ? ? ? ? ? ? ? ? ? cl [w r]].
  simpl. intros ->. reflexivity.
Qed.

(** C10: in every state of the Conn, open or closed, on a first call or a
    repeated one, the only value [Close] returns is the nil error; and
    [Close] does return it, both on an open Conn whose stop channels take
    the signal and on a closed Conn, whenever the closed-flag mutex is not
    held by somebody else. *)
Theorem Close_returns_nil_error (c : Conn) :
  (forall e, outcome (Close c) = Ret e -> e = err_nil) /\
  (forall e1 e2, outcome (Close c) = Ret e1 ->
     outcome (Close (after (Close c))) = Ret e2 -> e1 = err_nil /\ e2 = err_nil) /\
  (closed c = true -> RW.free (closedMutex c) -> outcome (Close c) = Ret err_nil) /\
  (closed c = false -> can_close c ->
     outcome (Close c) = Ret err_nil /\
     outcome (Close (after (Close c))) = Ret err_nil).
Proof.
  split; [|split; [|split]].
  - apply Close_returns_nil.
  - intros e1 e2 H1 H2. split; eapply Close_returns_nil; eassumption.
  - intros Hc Hf. rewrite (Close_when_closed c Hc Hf). reflexivity.
  - intros Hc Hcan. rewrite (Close_when_open c Hc Hcan). unfold after, outcome. simpl.
    split; [reflexivity|].
    rewrite Close_when_closed; [reflexivity | reflexivity | apply Hcan].
Qed.

Lemma open_conn_can_close : can_close open_conn.
Proof.
  unfold can_close, RW.free, Chan.accepts. simpl. repeat split; auto.
Qed.

Lemma Close_returns_nil_error_witness :
  outcome (Close open_conn) = Ret err_nil /\
  outcome (Close (after (Close open_conn))) = Ret err_nil.
Proof.
  apply (Close_returns_nil_error open_conn);
    [reflexivity | exact open_conn_can_close].
Defined.

(** C2: on a Conn that is not closed, [Close] signals the three stop
    channels, each once, sets the closed flag and returns success; on a
    closed Conn it sends nothing, changes nothing and returns success; so
    two calls in a row leave the same Conn, return the same value and send
    the same signals as one. *)
Theorem Close_idempotent (c : Conn) :
  closed c = false -> can_close c ->
  Close c = (Ret err_nil, closed_conn c,
             [EvLock N_closedMutex; EvSend N_stopReadCh; EvSend N_stopWriteCh;
              EvSend N_stopReqCh; EvUnlock N_closedMutex]) /\
  closed (closed_conn c) = true /\
  Close (closed_conn c) =
    (Ret err_nil, closed_conn c, [EvLock N_closedMutex; EvUnlock N_closedMutex]) /\
  outcome ((Close ;; Close) c) = outcome (Close c) /\
  after ((Close ;; Close) c) = after (Close c) /\
  sends (events ((Close ;; Close) c)) = sends (events (Close c)) /\
  (forall c', closed c' = true -> RW.free (closedMutex c') ->
     Close c' = (Ret err_nil, c', [EvLock N_closedMutex; EvUnlock N_closedMutex])).
Proof.
  intros Hc Hcan.
  assert (Hsecond : Close (closed_conn c) =
    (Ret err_nil, closed_conn c, [EvLock N_closedMutex; EvUnlock N_closedMutex])).
  { apply Close_when_closed; [reflexivity | apply Hcan]. }
  assert (Htwice : (Close ;; Close) c =
    (Ret err_nil, closed_conn c,
     [EvLock N_closedMutex; EvSend N_stopReadCh; EvSend N_stopWriteCh;
      EvSend N_stopReqCh; EvUnlock N_closedMutex] ++
     [EvLock N_closedMutex; EvUnlock N_closedMutex])).
  { unfold bind at 1. rewrite (Close_when_open c Hc Hcan), Hsecond. reflexivity. }
  rewrite Htwice, (Close_when_open c Hc Hcan).
  repeat split; try assumption.
  intros c' Hc' Hf. apply Close_when_closed; assumption.
Qed.

Lemma Close_idempotent_witness :
  Close (closed_conn open_conn) =
    (Ret err_nil, closed_conn open_conn,
     [EvLock N_closedMutex; EvUnlock N_closedMutex]).
Proof.
  destruct (Close_idempotent open_conn eq_refl open_conn_can_close)
    as (_ & _ & H & _).
  exact H.
Defined.

(** ** Sequencing *)

Lemma bind_Ret {A B} (m : M A) (f : A -> M B) (c : Conn) (a : A) :
  outcome (m c) = Ret a ->
  bind m f c =
    (outcome (f a (after (m c))), after (f a (after (m c))),
     events (m c) ++ events (f a (after (m c)))).
Proof.
  unfold bind, outcome, after, events.
  destruct (m c) as [[r c1] t1]. simpl. intros ->.
  destruct (f a c1) as [[r2 c2] t2]. reflexivity.
Qed.

Lemma bind_stuck {A B} (m : M A) (f : A -> M B) (c : Conn) :
  (forall a, outcome (m c) <> Ret a) ->
  after (bind m f c) = after (m c) /\
  events (bind m f c) = events (m c) /\
  forall b, outcome (bind m f c) <> Ret b.
Proof.
  unfold bind, outcome, after, events.
  destruct (m c) as [[[a| |s] c1] t1]; simpl; intro H.
  - exfalso. apply (H a). reflexivity.
  - repeat split. discriminate.
  - repeat split. discriminate.
Qed.

Lemma bind_Ret_inv {A B} (m : M A) (f : A -> M B) (c : Conn) (b : B) :
  outcome (bind m f c) = Ret b ->
  exists a, outcome (m c) = Ret a /\ outcome (f a (after (m c))) = Ret b /\
            after (bind m f c) = after (f a (after (m c))).
Proof.
  unfold bind, outcome, after.
  destruct (m c) as [[[a| |s] c1] t1]; simpl; try discriminate.
  destruct (f a c1) as [[r2 c2] t2] eqn:E. simpl. intros ->.
  exists a. rewrite E. repeat split.
Qed.

Lemma bind_after_inv {A B} (P : Conn -> Prop) (m : M A) (f : A -> M B) (c : Conn) :
  P (after (m c)) -> (forall a, P (after (f a (after (m c))))) ->
  P (after (bind m f c)).
Proof.
  unfold bind, after.
  destruct (m c) as [[[a| |s] c1] t1]; simpl; intros H1 H2; try assumption.
  specialize (H2 a). destruct (f a c1) as [[r2 c2] t2]. exact H2.
Qed.

(** ** Channels *)

Lemma recv_drained {A} (zero : A) (ch : chan A) :
  Chan.drained ch -> Chan.recv zero ch = Ret (zero, false, ch).
Proof.
  unfold Chan.drained, Chan.recv. intros [-> ->]. reflexivity.
Qed.

Lemma unbuffered_closed_drained {A} (ch : chan A) :
  Chan.wf ch -> cap ch = 0%nat -> chclosed ch = true -> Chan.drained ch.
Proof.
  unfold Chan.wf, Chan.drained. intros [Hlen _] Hcap Hcl. split; [assumption|].
  destruct (buf ch); [reflexivity | simpl in Hlen; lia].
Qed.

Lemma recv_pending {A} (zero : A) (ch : chan A) (r : A) (rest : list A) :
  Chan.wf ch -> Chan.pending ch = r :: rest ->
  exists ch', Chan.recv zero ch = Ret (r, true, ch') /\
              Chan.pending ch' = rest /\ Chan.wf ch' /\
              chclosed ch' = chclosed ch.
Proof.
  destruct ch as [b cp sq rq cl].
  unfold Chan.wf, Chan.pending, Chan.recv. simpl. intros [Hlen Hsq] Hp.
  destruct sq as [|s ss], b as [|v q]; simpl in *.
  - discriminate.
  - injection Hp as -> Hq. rewrite app_nil_r in Hq. subst q.
    rewrite andb_false_r.
    eexists. split; [reflexivity|]. simpl.
    split; [apply app_nil_r|]. split; [|reflexivity].
    split; [lia|]. intro H. exfalso. apply H. reflexivity.
  - injection Hp as -> ->.
    destruct Hsq as [Hcap ->]; [discriminate|]. simpl.
    eexists. split; [reflexivity|]. simpl.
    split; [reflexivity|]. split; [|reflexivity].
    split; [lia|]. intros _. split; [exact Hcap | reflexivity].
  - injection Hp as -> <-.
    destruct Hsq as [Hcap ->]; [discriminate|]. simpl.
    eexists. split; [reflexivity|]. simpl.
    split; [rewrite <- app_assoc; reflexivity|]. split; [|reflexivity].
    rewrite length_app. simpl.
    split; [lia|]. intros _. split; [lia | reflexivity].
Qed.

Lemma place_pending (r : rwResponse) (ch : chan rwResponse) :
  Chan.wf ch -> chclosed ch = false ->
  Chan.pending (place r ch) = Chan.pending ch ++ [r] /\
  Chan.wf (place r ch) /\ chclosed (place r ch) = false.
Proof.
  destruct ch as [b cp sq rq cl].
  unfold Chan.wf, Chan.pending, place, Chan.placed. simpl.
  intros [Hlen Hsq] ->.
  destruct (Nat.ltb_spec (List.length b) cp) as [Hlt | Hge]; simpl.
  - destruct sq as [|s ss].
    + rewrite !app_nil_r. split; [reflexivity|]. split; [|reflexivity].
      rewrite length_app. simpl. split; [lia|].
      intro H. exfalso. apply H. reflexivity.
    + destruct Hsq as [Hcap _]; [discriminate | lia].
  - split; [apply app_assoc|]. split; [|reflexivity].
    split; [assumption|]. intros _. split; [lia | reflexivity].
Qed.

Lemma fold_place_pending (rs : list rwResponse) (ch : chan rwResponse) :
  Chan.wf ch -> chclosed ch = false ->
  Chan.pending (fold_left (fun ch r => place r ch) rs ch) = Chan.pending ch ++ rs /\
  Chan.wf (fold_left (fun ch r => place r ch) rs ch) /\
  chclosed (fold_left (fun ch r => place r ch) rs ch) = false.
Proof.
  revert ch. induction rs as [|r rs IH]; intros ch Hwf Hop; simpl.
  - rewrite app_nil_r. split; [reflexivity | split; assumption].
  - destruct (place_pending r ch Hwf Hop) as (Hp & Hwf' & Hop').
    destruct (IH _ Hwf' Hop') as (Hp2 & Hwf2 & Hop2).
    rewrite Hp2, Hp, <- app_assoc. split; [reflexivity | split; assumption].
Qed.

(** ** Write and Read *)

Lemma set_writeResponsesCh_same (c : Conn) :
  set_writeResponsesCh (writeResponsesCh c) c = c.
Proof. destruct c. reflexivity. Qed.

Lemma set_readResponsesCh_same (c : Conn) :
  set_readResponsesCh (readResponsesCh c) c = c.
Proof. destruct c. reflexivity. Qed.

Lemma awaitWrite_drained (c : Conn) :
  Chan.drained (writeResponsesCh c) ->
  awaitWrite c = (Ret (0%Z, io_EOF), c, [EvRecv N_writeResponsesCh]).
Proof.
  intro H. unfold awaitWrite, bind, recv. simpl.
  rewrite (recv_drained _ _ H). simpl.
  rewrite set_writeResponsesCh_same. reflexivity.
Qed.

Lemma awaitRead_drained (c : Conn) :
  Chan.drained (readResponsesCh c) ->
  awaitRead c = (Ret (0%Z, io_EOF), c, [EvRecv N_readResponsesCh]).
Proof.
  intro H. unfold awaitRead, bind, recv. simpl.
  rewrite (recv_drained _ _ H). simpl.
  rewrite set_readResponsesCh_same. reflexivity.
Qed.

Lemma awaitWrite_pending (c : Conn) (r : rwResponse) (rest : list rwResponse) :
  Chan.wf (writeResponsesCh c) ->
  Chan.pending (writeResponsesCh c) = r :: rest ->
  exists ch',
    awaitWrite c = (Ret (n r, err r), set_writeResponsesCh ch' c,
                    [EvRecv N_writeResponsesCh]) /\
    Chan.pending ch' = rest /\ Chan.wf ch' /\
    chclosed ch' = chclosed (writeResponsesCh c).
Proof.
  intros Hwf Hp.
  destruct (recv_pending rwResponse_zero _ _ _ Hwf Hp) as (ch' & Hr & Hrest).
  exists ch'. split; [|exact Hrest].
  unfold awaitWrite, bind, recv. simpl. rewrite Hr. reflexivity.
Qed.

Lemma awaitRead_pending (c : Conn) (r : rwResponse) (rest : list rwResponse) :
  Chan.wf (readResponsesCh c) ->
  Chan.pending (readResponsesCh c) = r :: rest ->
  exists ch',
    awaitRead c = (Ret (n r, err r), set_readResponsesCh ch' c,
                   [EvRecv N_readResponsesCh]) /\
    Chan.pending ch' = rest /\ Chan.wf ch' /\
    chclosed ch' = chclosed (readResponsesCh c).
Proof.
  intros Hwf Hp.
  destruct (recv_pending rwResponse_zero _ _ _ Hwf Hp) as (ch' & Hr & Hrest).
  exists ch'. split; [|exact Hrest].
  unfold awaitRead, bind, recv. simpl. rewrite Hr. reflexivity.
Qed.

Section SubmitAny.
Variable submitWrite : list byte -> M bool.
Variable submitRead : list byte -> M bool.

Lemma Write_refused (b : list byte) (c : Conn) :
  outcome (submitWrite b c) = Ret false ->
  outcome (Write submitWrite b c) = Ret (0%Z, io_EOF) /\
  after (Write submitWrite b c) = after (submitWrite b c).
Proof.
  intro H. unfold Write. rewrite (bind_Ret _ _ _ _ H). split; reflexivity.
Qed.

Lemma Write_accepted (b : list byte) (c : Conn) :
  outcome (submitWrite b c) = Ret true ->
  outcome (Write submitWrite b c) = outcome (awaitWrite (after (submitWrite b c))) /\
  after (Write submitWrite b c) = after (awaitWrite (after (submitWrite b c))).
Proof.
  intro H. unfold Write. rewrite (bind_Ret _ _ _ _ H). split; reflexivity.
Qed.

Lemma Read_refused (b : list byte) (c : Conn) :
  outcome (submitRead b c) = Ret false ->
  outcome (Read submitRead b c) = Ret (0%Z, io_EOF) /\
  after (Read submitRead b c) = after (submitRead b c).
Proof.
  intro H. unfold Read. rewrite (bind_Ret _ _ _ _ H). split; reflexivity.
Qed.

Lemma Read_accepted (b : list byte) (c : Conn) :
  outcome (submitRead b c) = Ret true ->
  outcome (Read submitRead b c) = outcome (awaitRead (after (submitRead b c))) /\
  after (Read submitRead b c) = after (awaitRead (after (submitRead b c))).
Proof.
  intro H. unfold Read. rewrite (bind_Ret _ _ _ _ H). split; reflexivity.
Qed.

(** C1: for every byte slice, [Write] and [Read] return [(0, io.EOF)]
    when the submission is refused, and when it is accepted and the
    receive on the response channel reports the channel closed (closed,
    with no response left in it); a caller already waiting on the
    response channel gets [(0, io.EOF)] as well once the channel is in
    that state.  An unbuffered channel is in that state as soon as it is
    closed. *)
Theorem closed_Conn_yields_EOF (b : list byte) (c : Conn) :
  (outcome (submitWrite b c) = Ret false ->
   outcome (Write submitWrite b c) = Ret (0%Z, io_EOF)) /\
  (outcome (submitWrite b c) = Ret true ->
   Chan.drained (writeResponsesCh (after (submitWrite b c))) ->
   outcome (Write submitWrite b c) = Ret (0%Z, io_EOF)) /\
  (Chan.drained (writeResponsesCh c) ->
   outcome (awaitWrite c) = Ret (0%Z, io_EOF)) /\
  (outcome (submitRead b c) = Ret false ->
   outcome (Read submitRead b c) = Ret (0%Z, io_EOF)) /\
  (outcome (submitRead b c) = Ret true ->
   Chan.drained (readResponsesCh (after (submitRead b c))) ->
   outcome (Read submitRead b c) = Ret (0%Z, io_EOF)) /\
  (Chan.drained (readResponsesCh c) ->
   outcome (awaitRead c) = Ret (0%Z, io_EOF)) /\
  (Chan.wf (writeResponsesCh c) -> cap (writeResponsesCh c) = 0%nat ->
   chclosed (writeResponsesCh c) = true ->
   outcome (awaitWrite c) = Ret (0%Z, io_EOF)) /\
  (Chan.wf (readResponsesCh c) -> cap (readResponsesCh c) = 0%nat ->
   chclosed (readResponsesCh c) = true ->
   outcome (awaitRead c) = Ret (0%Z, io_EOF)).
Proof.
  repeat split.
  - intro H. apply Write_refused, H.
  - intros H Hd. destruct (Write_accepted b c H) as [-> _].
    rewrite (awaitWrite_drained _ Hd). reflexivity.
  - intro Hd. rewrite (awaitWrite_drained _ Hd). reflexivity.
  - intro H. apply Read_refused, H.
  - intros H Hd. destruct (Read_accepted b c H) as [-> _].
    rewrite (awaitRead_drained _ Hd). reflexivity.
  - intro Hd. rewrite (awaitRead_drained _ Hd). reflexivity.
  - intros Hwf Hcap Hcl.
    rewrite (awaitWrite_drained _ (unbuffered_closed_drained _ Hwf Hcap Hcl)).
    reflexivity.
  - intros Hwf Hcap Hcl.
    rewrite (awaitRead_drained _ (unbuffered_closed_drained _ Hwf Hcap Hcl)).
    reflexivity.
Qed.
End SubmitAny.

Lemma closed_Conn_yields_EOF_witness :
  outcome (Write submit_unless_closed [] shut_conn) = Ret (0%Z, io_EOF) /\
  outcome (Write submit_always [] shut_conn) = Ret (0%Z, io_EOF) /\
  outcome (awaitWrite shut_conn) = Ret (0%Z, io_EOF) /\
  outcome (Read submit_unless_closed [] shut_conn) = Ret (0%Z, io_EOF) /\
  outcome (Read submit_always [] shut_conn) = Ret (0%Z, io_EOF) /\
  outcome (awaitRead shut_conn) = Ret (0%Z, io_EOF).
Proof.
  destruct (closed_Conn_yields_EOF submit_unless_closed submit_unless_closed [] shut_conn)
    as (Hw & _ & Hpw & Hr & _ & Hpr & _).
  destruct (closed_Conn_yields_EOF submit_always submit_always [] shut_conn)
    as (_ & Hwa & _ & _ & Hra & _).
  split; [apply Hw; reflexivity|].
  split; [apply Hwa; [reflexivity | split; reflexivity]|].
  split; [apply Hpw; split; reflexivity|].
  split; [apply Hr; reflexivity|].
  split; [apply Hra; [reflexivity | split; reflexivity]|].
  apply Hpr; split; reflexivity.
Defined.

Section WriteResponses.
Variable submitWrite : list byte -> M bool.

Lemma Write_pops_response (b : list byte) (c : Conn) (r : rwResponse)
    (rest : list rwResponse) :
  outcome (submitWrite b c) = Ret true ->
  Chan.wf (writeResponsesCh (after (submitWrite b c))) ->
  Chan.pending (writeResponsesCh (after (submitWrite b c))) = r :: rest ->
  outcome (Write submitWrite b c) = Ret (n r, err r) /\
  Chan.pending (writeResponsesCh (after (Write submitWrite b c))) = rest.
Proof.
  intros Hacc Hwf Hp.
  destruct (Write_accepted submitWrite b c Hacc) as [-> ->].
  destruct (awaitWrite_pending _ r rest Hwf Hp) as (ch' & -> & Hrest & _).
  split; [reflexivity | exact Hrest].
Qed.

Lemma env_place_pending (rs : list rwResponse) (c : Conn) :
  Chan.wf (writeResponsesCh c) -> chclosed (writeResponsesCh c) = false ->
  Chan.pending (writeResponsesCh (after (env_place rs c))) =
    Chan.pending (writeResponsesCh c) ++ rs /\
  Chan.wf (writeResponsesCh (after (env_place rs c))) /\
  chclosed (writeResponsesCh (after (env_place rs c))) = false.
Proof.
  intros Hwf Hop. unfold env_place, after. simpl.
  apply fold_place_pending; assumption.
Qed.

Lemma env_place_then {B} (rs : list rwResponse) (k : M B) (c : Conn) :
  (env_place rs ;; k) c = k (after (env_place rs c)).
Proof.
  unfold bind, env_place, after. simpl.
  destruct (k _) as [[r2 c2] t2]. reflexivity.
Qed.

Lemma Write_served_accepted (b : list byte) (rs : list rwResponse) (c : Conn) :
  outcome (submitWrite b c) = Ret true ->
  Write_served submitWrite b rs c =
    (outcome (awaitWrite (after (env_place rs (after (submitWrite b c))))),
     after (awaitWrite (after (env_place rs (after (submitWrite b c))))),
     events (submitWrite b c) ++
     events (awaitWrite (after (env_place rs (after (submitWrite b c)))))).
Proof.
  intro H. unfold Write_served. rewrite (bind_Ret _ _ _ _ H).
  rewrite env_place_then. reflexivity.
Qed.

Lemma Write_served_nothing (b : list byte) (c : Conn) :
  Chan.wf (writeResponsesCh (after (submitWrite b c))) ->
  outcome (Write_served submitWrite b [] c) = outcome (Write submitWrite b c) /\
  after (Write_served submitWrite b [] c) = after (Write submitWrite b c) /\
  events (Write_served submitWrite b [] c) = events (Write submitWrite b c).
Proof.
  intros _. unfold Write_served, Write, bind, env_place, outcome, after, events.
  destruct (submitWrite b c) as [[[a| |s] c1] t1]; simpl;
    try (repeat split; reflexivity).
  rewrite set_writeResponsesCh_same.
  destruct a; simpl.
  - destruct (awaitWrite c1) as [[r2 c2] t2]. repeat split.
  - repeat split.
Qed.

Hypothesis submit_frame : leaves_writeResponsesCh submitWrite.

Lemma run_writes_in_order (items : list (list byte * list rwResponse)) :
  forall c,
    Chan.wf (writeResponsesCh c) -> chclosed (writeResponsesCh c) = false ->
    all_served submitWrite items c ->
    outcome (run_writes submitWrite items c) =
      Ret (map pair_of
             (firstn (List.length items)
                (Chan.pending (writeResponsesCh c) ++ List.concat (map snd items)))) /\
    Chan.pending (writeResponsesCh (after (run_writes submitWrite items c))) =
      skipn (List.length items)
        (Chan.pending (writeResponsesCh c) ++ List.concat (map snd items)).
Proof.
  induction items as [|[b rs] items IH]; intros c Hwf Hop Hall.
  - simpl. rewrite app_nil_r. split; reflexivity.
  - cbn [all_served] in Hall. destruct Hall as (Hacc & Hne & Hall).
    pose proof (submit_frame b c) as Hfr.
    set (c1 := after (submitWrite b c)) in *.
    assert (Hwf1 : Chan.wf (writeResponsesCh c1)) by (rewrite Hfr; exact Hwf).
    assert (Hop1 : chclosed (writeResponsesCh c1) = false) by (rewrite Hfr; exact Hop).
    destruct (env_place_pending rs c1 Hwf1 Hop1) as (Hp2 & Hwf2 & Hop2).
    set (c2 := after (env_place rs c1)) in *.
    destruct (Chan.pending (writeResponsesCh c2)) as [|r rest] eqn:Hp;
      [exfalso; apply Hne; reflexivity|].
    destruct (awaitWrite_pending c2 r rest Hwf2 Hp) as (ch' & Haw & Hrest & Hwf3 & Hop3).
    assert (Hserved : Write_served submitWrite b rs c =
              (Ret (n r, err r), set_writeResponsesCh ch' c2,
               events (submitWrite b c) ++ [EvRecv N_writeResponsesCh])).
    { rewrite (Write_served_accepted b rs c Hacc). fold c1. fold c2.
      rewrite Haw. reflexivity. }
    rewrite Haw in Hall. unfold after in Hall at 1. simpl in Hall.
    set (c3 := set_writeResponsesCh ch' c2) in *.
    assert (Hch3 : writeResponsesCh c3 = ch') by reflexivity.
    specialize (IH c3).
    rewrite Hch3 in IH.
    destruct IH as [IHo IHp]; [exact Hwf3 | congruence | exact Hall |].
    rewrite Hrest in IHo, IHp.
    assert (Hall_pending :
      Chan.pending (writeResponsesCh c) ++ List.concat (map snd ((b, rs) :: items)) =
      r :: rest ++ List.concat (map snd items)).
    { simpl. rewrite app_assoc, <- Hfr. fold c1. rewrite <- Hp2. reflexivity. }
    rewrite Hall_pending.
    change (run_writes submitWrite ((b, rs) :: items)) with
      (bind (Write_served submitWrite b rs)
         (fun v => bind (run_writes submitWrite items) (fun vs => ret (v :: vs)))).
    assert (Ho : outcome (Write_served submitWrite b rs c) = Ret (n r, err r))
      by (rewrite Hserved; reflexivity).
    rewrite (bind_Ret _ _ _ _ Ho).
    rewrite Hserved. unfold after at 2 5. simpl snd at 1. simpl fst.
    fold c3.
    rewrite (bind_Ret _ _ _ _ IHo).
    unfold outcome at 1, after at 1. simpl.
    split; [reflexivity | exact IHp].
Qed.
End WriteResponses.

Lemma submit_always_leaves_writeResponsesCh : leaves_writeResponsesCh submit_always.
Proof. intros b c. reflexivity. Qed.

(** C7: a [Write] whose submission is accepted and whose receive finds a
    response returns the count and the error of that response, unchanged,
    and takes that one response off the channel; over a run of writes, with
    the write processor placing responses between submission and receive,
    the k-th write returns the k-th response placed on the channel. *)
Theorem Write_returns_queued_response (submitWrite : list byte -> M bool) :
  (forall b c r rest,
     outcome (submitWrite b c) = Ret true ->
     Chan.wf (writeResponsesCh (after (submitWrite b c))) ->
     Chan.pending (writeResponsesCh (after (submitWrite b c))) = r :: rest ->
     outcome (Write submitWrite b c) = Ret (n r, err r) /\
     Chan.pending (writeResponsesCh (after (Write submitWrite b c))) = rest) /\
  (leaves_writeResponsesCh submitWrite ->
   forall items c,
     Chan.wf (writeResponsesCh c) -> chclosed (writeResponsesCh c) = false ->
     all_served submitWrite items c ->
     outcome (run_writes submitWrite items c) =
       Ret (map pair_of
              (firstn (List.length items)
                 (Chan.pending (writeResponsesCh c) ++ List.concat (map snd items)))) /\
     Chan.pending (writeResponsesCh (after (run_writes submitWrite items c))) =
       skipn (List.length items)
         (Chan.pending (writeResponsesCh c) ++ List.concat (map snd items))).
Proof.
  split.
  - intros b c r rest. apply Write_pops_response.
  - intros Hfr items c. apply run_writes_in_order. exact Hfr.
Qed.

Lemma Write_returns_queued_response_witness :
  outcome (Write submit_always []
             (conn_with_responses [mk_rwResponse 5 err_nil])) = Ret (5%Z, err_nil) /\
  outcome (run_writes submit_always
             [([], [mk_rwResponse 5 err_nil]);
              ([], [mk_rwResponse 0 (err_other "broken pipe"); mk_rwResponse 7 err_nil]);
              ([], [])]
             open_conn) =
    Ret [(5%Z, err_nil); (0%Z, err_other "broken pipe"); (7%Z, err_nil)].
Proof.
  destruct (Write_returns_queued_response submit_always) as [Hone Hrun].
  split.
  - apply (Hone [] (conn_with_responses [mk_rwResponse 5 err_nil])
             (mk_rwResponse 5 err_nil) []).
    + reflexivity.
    + vm_compute. split; [lia | intros _; split; reflexivity].
    + reflexivity.
  - apply (Hrun submit_always_leaves_writeResponsesCh
             [([], [mk_rwResponse 5 err_nil]);
              ([], [mk_rwResponse 0 (err_other "broken pipe"); mk_rwResponse 7 err_nil]);
              ([], [])]
             open_conn).
    + vm_compute. split; [lia | intro H; exfalso; apply H; reflexivity].
    + reflexivity.
    + vm_compute. repeat split; discriminate.
Defined.

(** ** Runs of calls *)

Lemma bind_pure {A B} (m : M A) (f : A -> M B) (c : Conn) :
  (forall a c', exists v, f a c' = (Ret v, c', [])) ->
  after (bind m f c) = after (m c) /\
  events (bind m f c) = events (m c) /\
  (forall v, outcome (bind m f c) = Ret v -> exists a, outcome (m c) = Ret a) /\
  (forall a, outcome (m c) = Ret a -> exists v, outcome (bind m f c) = Ret v).
Proof.
  intro Hf. unfold bind, outcome, after, events.
  destruct (m c) as [[[a| |s] c1] t1]; simpl.
  - destruct (Hf a c1) as [v ->]. simpl. rewrite app_nil_r.
    repeat split; intros; eexists; reflexivity.
  - repeat split; intros; discriminate.
  - repeat split; intros; discriminate.
Qed.

Lemma awaitWrite_frame (c : Conn) :
  closed (after (awaitWrite c)) = closed c /\
  closedMutex (after (awaitWrite c)) = closedMutex c /\
  sends (events (awaitWrite c)) = [] /\
  send_under_lock 0 (events (awaitWrite c)) = false.
Proof.
  destruct c. unfold_methods. split_cases; repeat split.
Qed.

Lemma awaitRead_frame (c : Conn) :
  closed (after (awaitRead c)) = closed c /\
  closedMutex (after (awaitRead c)) = closedMutex c /\
  sends (events (awaitRead c)) = [] /\
  send_under_lock 0 (events (awaitRead c)) = false.
Proof.
  destruct c. unfold_methods. split_cases; repeat split.
Qed.

Section Runs.
Variable submitWrite : list byte -> M bool.
Variable submitRead : list byte -> M bool.
Hypothesis write_leaves_closed : leaves_closed submitWrite.
Hypothesis read_leaves_closed : leaves_closed submitRead.

Local Abbreviation call_on := (run_call submitWrite submitRead).
Local Abbreviation calls_on := (run_calls submitWrite submitRead).
Local Abbreviation signals_on := (close_signals submitWrite submitRead).

Lemma close_signals_cons (ch : chanName) (k : call) (ks : list call) (c : Conn) :
  signals_on ch (k :: ks) c =
    (match k with
     | CallClose => sends_on ch (events (call_on k c))
     | _ => 0
     end
     + match outcome (call_on k c) with
       | Ret _ => signals_on ch ks (after (call_on k c))
       | _ => 0
       end)%nat.
Proof. reflexivity. Qed.

Lemma Write_leaves_closed (b : list byte) (c : Conn) :
  closed (after (Write submitWrite b c)) = closed c.
Proof.
  unfold Write.
  apply (bind_after_inv (fun c' => closed c' = closed c)).
  - apply write_leaves_closed.
  - intros [|].
    + rewrite (proj1 (awaitWrite_frame _)). apply write_leaves_closed.
    + apply write_leaves_closed.
Qed.

Lemma Read_leaves_closed (b : list byte) (c : Conn) :
  closed (after (Read submitRead b c)) = closed c.
Proof.
  unfold Read.
  apply (bind_after_inv (fun c' => closed c' = closed c)).
  - apply read_leaves_closed.
  - intros [|].
    + rewrite (proj1 (awaitRead_frame _)). apply read_leaves_closed.
    + apply read_leaves_closed.
Qed.

Lemma run_call_after (k : call) (c : Conn) :
  after (call_on k c) =
    match k with
    | CallWrite b => after (Write submitWrite b c)
    | CallRead b => after (Read submitRead b c)
    | CallClose => after (Close c)
    | CallIsClosed => after (isClosed c)
    end.
Proof.
  destruct k; unfold run_call; apply bind_pure;
    intros a c'; try destruct a; eexists; reflexivity.
Qed.

Lemma run_call_events (k : call) (c : Conn) :
  events (call_on k c) =
    match k with
    | CallWrite b => events (Write submitWrite b c)
    | CallRead b => events (Read submitRead b c)
    | CallClose => events (Close c)
    | CallIsClosed => events (isClosed c)
    end.
Proof.
  destruct k; unfold run_call; apply bind_pure;
    intros a c'; try destruct a; eexists; reflexivity.
Qed.

Lemma run_call_Close_returned (c : Conn) (v : value) :
  outcome (call_on CallClose c) = Ret v -> exists e, outcome (Close c) = Ret e.
Proof.
  unfold run_call. apply bind_pure.
  intros a c'. eexists. reflexivity.
Qed.

Lemma run_call_keeps_closed (k : call) (c : Conn) :
  closed c = true -> closed (after (call_on k c)) = true.
Proof.
  intro Hc. rewrite run_call_after. destruct k.
  - rewrite Write_leaves_closed. exact Hc.
  - rewrite Read_leaves_closed. exact Hc.
  - apply Close_keeps_closed, Hc.
  - rewrite (proj1 (isClosed_restores c)). exact Hc.
Qed.

Lemma run_call_other_leaves_closed (k : call) (c : Conn) :
  k <> CallClose -> closed (after (call_on k c)) = closed c.
Proof.
  intro Hk. rewrite run_call_after. destruct k.
  - apply Write_leaves_closed.
  - apply Read_leaves_closed.
  - congruence.
  - apply (proj1 (isClosed_restores c)).
Qed.

Lemma run_calls_cons (k : call) (ks : list call) (c : Conn) :
  (forall v, outcome (call_on k c) = Ret v ->
     after (calls_on (k :: ks) c) = after (calls_on ks (after (call_on k c))) /\
     (forall vs, outcome (calls_on (k :: ks) c) = Ret vs ->
        exists vs', outcome (calls_on ks (after (call_on k c))) = Ret vs')) /\
  ((forall v, outcome (call_on k c) <> Ret v) ->
     after (calls_on (k :: ks) c) = after (call_on k c) /\
     forall vs, outcome (calls_on (k :: ks) c) <> Ret vs).
Proof.
  split.
  - intros v Hv.
    change (calls_on (k :: ks)) with
      (bind (call_on k) (fun v => bind (calls_on ks) (fun vs => ret (v :: vs)))).
    rewrite (bind_Ret _ _ _ _ Hv). unfold after at 1, outcome at 2. simpl.
    destruct (bind_pure (calls_on ks) (fun vs => ret (v :: vs)) (after (call_on k c)))
      as (Ha & _ & Hr & _).
    { intros a c'. eexists. reflexivity. }
    split; [exact Ha | exact Hr].
  - intro Hstuck.
    change (calls_on (k :: ks)) with
      (bind (call_on k) (fun v => bind (calls_on ks) (fun vs => ret (v :: vs)))).
    destruct (bind_stuck (call_on k)
                (fun v => bind (calls_on ks) (fun vs => ret (v :: vs))) c Hstuck)
      as (Ha & _ & Hr).
    split; assumption.
Qed.

Lemma outcome_cases {A} (r : result A) :
  (exists v, r = Ret v) \/ (forall v, r <> Ret v).
Proof.
  destruct r as [a| |s]; [left; eauto | right; discriminate | right; discriminate].
Qed.

Lemma run_calls_keep_closed (ks : list call) :
  forall c, closed c = true -> closed (after (calls_on ks c)) = true.
Proof.
  induction ks as [|k ks IH]; intros c Hc; [exact Hc|].
  destruct (outcome_cases (outcome (call_on k c))) as [[v Hv] | Hstuck].
  - destruct (proj1 (run_calls_cons k ks c) v Hv) as [-> _].
    apply IH, run_call_keeps_closed, Hc.
  - destruct (proj2 (run_calls_cons k ks c) Hstuck) as [-> _].
    apply run_call_keeps_closed, Hc.
Qed.

Lemma closed_no_signals (ch : chanName) (ks : list call) :
  forall c, closed c = true -> signals_on ch ks c = 0%nat.
Proof.
  induction ks as [|k ks IH]; intros c Hc; [reflexivity|].
  rewrite close_signals_cons.
  assert (Hrest : match outcome (call_on k c) with
                  | Ret _ => signals_on ch ks (after (call_on k c))
                  | _ => 0%nat
                  end = 0%nat).
  { destruct (outcome (call_on k c)); try reflexivity.
    apply IH, run_call_keeps_closed, Hc. }
  rewrite Hrest.
  destruct k; try reflexivity.
  rewrite run_call_events.
  rewrite (sends_on_sends _ _ (Close_closed_sends_nothing c Hc)). reflexivity.
Qed.

Lemma signals_at_most_once (ch : chanName) (ks : list call) :
  forall c, (signals_on ch ks c <= 1)%nat.
Proof.
  induction ks as [|k ks IH]; intro c; [simpl; lia|].
  rewrite close_signals_cons.
  destruct k.
  - destruct (outcome (call_on (CallWrite b) c)); simpl; try lia. apply IH.
  - destruct (outcome (call_on (CallRead b) c)); simpl; try lia. apply IH.
  - rewrite run_call_events.
    pose proof (Close_sends_at_most_once c ch) as Hone.
    destruct (outcome (call_on CallClose c)) as [v| |s] eqn:Hv; try lia.
    destruct (run_call_Close_returned c v Hv) as [e He].
    rewrite run_call_after.
    rewrite closed_no_signals; [lia|].
    apply (Close_restores c e He).
  - destruct (outcome (call_on CallIsClosed c)); simpl; try lia. apply IH.
Qed.

Lemma signals_exactly_once (ch : chanName) (ks : list call) :
  In ch stop_channels ->
  forall c vs, closed c = false -> In CallClose ks ->
    outcome (calls_on ks c) = Ret vs ->
    signals_on ch ks c = 1%nat.
Proof.
  intro Hch. induction ks as [|k ks IH]; intros c vs Hc Hin Hret; [destruct Hin|].
  destruct (outcome_cases (outcome (call_on k c))) as [[v Hv] | Hstuck].
  2:{ exfalso. apply (proj2 (proj2 (run_calls_cons k ks c) Hstuck) vs). exact Hret. }
  destruct (proj1 (run_calls_cons k ks c) v Hv) as [_ Hrest].
  destruct (Hrest vs Hret) as [vs' Hvs'].
  rewrite close_signals_cons.
  rewrite Hv.
  assert (Hk : k = CallClose \/ k <> CallClose)
    by (destruct k; [right | right | left | right]; congruence).
  destruct Hk as [-> | Hk].
  - destruct (run_call_Close_returned c v Hv) as [e He].
    rewrite run_call_events, run_call_after.
    rewrite (Close_open_sends_once c e ch Hc He Hch).
    rewrite closed_no_signals; [reflexivity|].
    apply (Close_restores c e He).
  - destruct Hin as [Heq | Hin]; [congruence|].
    rewrite (IH (after (call_on k c)) vs'); try assumption.
    + destruct k; try reflexivity. congruence.
    + rewrite run_call_other_leaves_closed; assumption.
Qed.
Lemma close_signals_app (ch : chanName) (ks more : list call) :
  forall c vs, outcome (calls_on ks c) = Ret vs ->
    signals_on ch (ks ++ more) c =
      (signals_on ch ks c + signals_on ch more (after (calls_on ks c)))%nat.
Proof.
  induction ks as [|k ks IH]; intros c vs Hret; [reflexivity|].
  destruct (outcome_cases (outcome (call_on k c))) as [[v Hv] | Hstuck].
  2:{ exfalso. apply (proj2 (proj2 (run_calls_cons k ks c) Hstuck) vs). exact Hret. }
  destruct (proj1 (run_calls_cons k ks c) v Hv) as [-> Hrest].
  destruct (Hrest vs Hret) as [vs' Hvs'].
  rewrite <- app_comm_cons, !close_signals_cons, Hv.
  rewrite (IH _ vs' Hvs'). lia.
Qed.

Lemma signals_once_from_then_on (ch : chanName) (ks more : list call) :
  In ch stop_channels ->
  forall c vs, closed c = false -> In CallClose ks ->
    outcome (calls_on ks c) = Ret vs ->
    signals_on ch (ks ++ more) c = 1%nat.
Proof.
  intros Hch c vs Hc Hin Hret.
  pose proof (signals_at_most_once ch (ks ++ more) c) as Hle.
  rewrite (close_signals_app ch ks more c vs Hret) in *.
  rewrite (signals_exactly_once ch ks Hch c vs Hc Hin Hret) in *.
  lia.
Qed.
End Runs.

Lemma isClosed_Ret_inv (c : Conn) (f : bool) :
  outcome (isClosed c) = Ret f -> writer (closedMutex c) = false /\ f = closed c.
Proof.
  destruct c as [? ? ? ? ? ? ? ? ? ? ? ? ? ? ? ? ? ? cl [w r]].
  unfold_methods. destruct w; simpl; [discriminate|].
  intro H. split; congruence.
Qed.

Lemma submit_unless_closed_leaves_closed : leaves_closed submit_unless_closed.
Proof.
  intros b c. unfold submit_unless_closed.
  destruct (bind_pure isClosed (fun f => ret (negb f)) c) as (-> & _).
  - intros a c'. eexists. reflexivity.
  - apply (proj1 (isClosed_restores c)).
Qed.

Lemma submit_unless_closed_leaves_closedMutex : leaves_closedMutex submit_unless_closed.
Proof.
  intros b c v. unfold submit_unless_closed.
  destruct (bind_pure isClosed (fun f => ret (negb f)) c) as (-> & _ & Hr & _).
  - intros a c'. eexists. reflexivity.
  - intro H. destruct (Hr v H) as [f Hf].
    destruct (isClosed_restores c) as (_ & _ & Hsame).
    destruct (Hsame f Hf) as [_ ->]. reflexivity.
Qed.

(** C3: over a run of calls on a Conn that starts open, whatever the calls
    and however many of them are [Close], the [Close] calls together send
    at most one signal on each stop channel, and exactly one on each from
    the moment a [Close] call of the run has returned, whatever calls
    follow; on a Conn that is already closed they send none. *)
Theorem stop_channels_signalled_once (submitWrite submitRead : list byte -> M bool) :
  leaves_closed submitWrite -> leaves_closed submitRead ->
  forall ch ks c, In ch stop_channels ->
    (close_signals submitWrite submitRead ch ks c <= 1)%nat /\
    (closed c = true -> close_signals submitWrite submitRead ch ks c = 0%nat) /\
    (closed c = false -> In CallClose ks ->
     forall vs, outcome (run_calls submitWrite submitRead ks c) = Ret vs ->
       forall more, close_signals submitWrite submitRead ch (ks ++ more) c = 1%nat).
Proof.
  intros Hw Hr ch ks c Hch. split; [|split].
  - apply signals_at_most_once; assumption.
  - apply closed_no_signals; assumption.
  - intros Hc Hin vs Hret more. eapply signals_once_from_then_on; eassumption.
Qed.

Lemma stop_channels_signalled_once_witness :
  close_signals submit_unless_closed submit_unless_closed N_stopReadCh
    ([CallIsClosed; CallClose; CallWrite []; CallClose] ++ [CallRead []; CallClose])
    open_conn = 1%nat /\
  close_signals submit_unless_closed submit_unless_closed N_stopWriteCh
    ([CallIsClosed; CallClose; CallWrite []; CallClose] ++ [CallRead []; CallClose])
    open_conn = 1%nat /\
  close_signals submit_unless_closed submit_unless_closed N_stopReqCh
    ([CallIsClosed; CallClose; CallWrite []; CallClose] ++ [CallRead []; CallClose])
    open_conn = 1%nat.
Proof.
  pose proof (stop_channels_signalled_once submit_unless_closed submit_unless_closed
                submit_unless_closed_leaves_closed submit_unless_closed_leaves_closed)
    as H.
  split; [|split].
  - eapply (H N_stopReadCh); [simpl; tauto | reflexivity | simpl; tauto | vm_compute; reflexivity].
  - eapply (H N_stopWriteCh); [simpl; tauto | reflexivity | simpl; tauto | vm_compute; reflexivity].
  - eapply (H N_stopReqCh); [simpl; tauto | reflexivity | simpl; tauto | vm_compute; reflexivity].
Defined.

Section Monotonic.
Variable submitWrite : list byte -> M bool.
Variable submitRead : list byte -> M bool.
Hypothesis write_leaves_closed : leaves_closed submitWrite.
Hypothesis read_leaves_closed : leaves_closed submitRead.
Hypothesis write_leaves_mutex : leaves_closedMutex submitWrite.
Hypothesis read_leaves_mutex : leaves_closedMutex submitRead.

Local Abbreviation call_on := (run_call submitWrite submitRead).
Local Abbreviation calls_on := (run_calls submitWrite submitRead).

Lemma Write_restores_mutex (b : list byte) (c : Conn) (v : Z * error) :
  outcome (Write submitWrite b c) = Ret v ->
  closedMutex (after (Write submitWrite b c)) = closedMutex c.
Proof.
  unfold Write. intro H.
  destruct (bind_Ret_inv _ _ _ _ H) as (a & Ha & _ & ->).
  destruct a.
  - rewrite (proj1 (proj2 (awaitWrite_frame _))). eapply write_leaves_mutex, Ha.
  - eapply write_leaves_mutex, Ha.
Qed.

Lemma Read_restores_mutex (b : list byte) (c : Conn) (v : Z * error) :
  outcome (Read submitRead b c) = Ret v ->
  closedMutex (after (Read submitRead b c)) = closedMutex c.
Proof.
  unfold Read. intro H.
  destruct (bind_Ret_inv _ _ _ _ H) as (a & Ha & _ & ->).
  destruct a.
  - rewrite (proj1 (proj2 (awaitRead_frame _))). eapply read_leaves_mutex, Ha.
  - eapply read_leaves_mutex, Ha.
Qed.

Lemma run_call_restores_mutex (k : call) (c : Conn) (v : value) :
  outcome (call_on k c) = Ret v ->
  closedMutex (after (call_on k c)) = closedMutex c.
Proof.
  intro H. rewrite run_call_after.
  destruct k; unfold run_call in H;
    apply bind_Ret_inv in H; destruct H as (a & Ha & _).
  - eapply Write_restores_mutex, Ha.
  - eapply Read_restores_mutex, Ha.
  - eapply Close_restores, Ha.
  - destruct (isClosed_restores c) as (_ & _ & Hsame).
    destruct (Hsame a Ha) as [_ ->]. reflexivity.
Qed.

Lemma run_calls_restore_mutex (ks : list call) :
  forall c vs, outcome (calls_on ks c) = Ret vs ->
    closedMutex (after (calls_on ks c)) = closedMutex c.
Proof.
  induction ks as [|k ks IH]; intros c vs Hret; [reflexivity|].
  destruct (outcome_cases (outcome (call_on k c))) as [[v Hv] | Hstuck].
  - destruct (proj1 (run_calls_cons submitWrite submitRead k ks c) v Hv) as [-> Hrest].
    destruct (Hrest vs Hret) as [vs' Hvs'].
    rewrite (IH _ vs' Hvs'). eapply run_call_restores_mutex, Hv.
  - exfalso.
    apply (proj2 (proj2 (run_calls_cons submitWrite submitRead k ks c) Hstuck) vs).
    exact Hret.
Qed.
End Monotonic.

(** C5: no run of [Write], [Read], [Close] and [isClosed] calls takes the
    closed flag from true back to false; so once [isClosed] has returned
    true, in the state any such run leaves behind [isClosed] cannot return
    false, and it returns true when the run has returned. *)
Theorem closed_flag_monotonic (submitWrite submitRead : list byte -> M bool) :
  leaves_closed submitWrite -> leaves_closed submitRead ->
  leaves_closedMutex submitWrite -> leaves_closedMutex submitRead ->
  forall ks c,
    (closed c = true ->
     closed (after (run_calls submitWrite submitRead ks c)) = true) /\
    (outcome (isClosed c) = Ret true ->
     closed (after (run_calls submitWrite submitRead ks c)) = true /\
     (forall f, outcome (isClosed (after (run_calls submitWrite submitRead ks c))) = Ret f ->
        f = true) /\
     (forall vs, outcome (run_calls submitWrite submitRead ks c) = Ret vs ->
        outcome (isClosed (after (run_calls submitWrite submitRead ks c))) = Ret true)).
Proof.
  intros Hw Hr Hwm Hrm ks c.
  assert (Hkeep : closed c = true ->
                  closed (after (run_calls submitWrite submitRead ks c)) = true)
    by (apply run_calls_keep_closed; assumption).
  split; [exact Hkeep|].
  intro Hret. apply isClosed_Ret_inv in Hret. destruct Hret as [Hfree Hc].
  symmetry in Hc. specialize (Hkeep Hc).
  split; [exact Hkeep|]. split.
  - intros f Hf. apply isClosed_Ret_inv in Hf. destruct Hf as [_ ->]. exact Hkeep.
  - intros vs Hvs.
    rewrite isClosed_returns.
    + unfold outcome. simpl. rewrite Hkeep. reflexivity.
    + rewrite (run_calls_restore_mutex submitWrite submitRead Hwm Hrm ks c vs Hvs).
      exact Hfree.
Qed.

Lemma closed_flag_monotonic_witness :
  closed (after (run_calls submit_unless_closed submit_unless_closed
                   [CallWrite []; CallIsClosed; CallClose; CallRead []]
                   (closed_conn open_conn))) = true /\
  outcome (isClosed
             (after (run_calls submit_unless_closed submit_unless_closed
                       [CallWrite []; CallIsClosed; CallClose; CallRead []]
                       (closed_conn open_conn)))) = Ret true.
Proof.
  destruct (closed_flag_monotonic submit_unless_closed submit_unless_closed
              submit_unless_closed_leaves_closed submit_unless_closed_leaves_closed
              submit_unless_closed_leaves_closedMutex
              submit_unless_closed_leaves_closedMutex
              [CallWrite []; CallIsClosed; CallClose; CallRead []]
              (closed_conn open_conn)) as [Hflag Hseen].
  split.
  - apply Hflag. reflexivity.
  - destruct Hseen as (_ & _ & Hagain); [reflexivity|].
    eapply Hagain. vm_compute. reflexivity.
Defined.

(** ** Locks and channel sends *)

Lemma Close_open_sends_locked (c : Conn) (e : error) :
  closed c = false -> outcome (Close c) = Ret e ->
  events (Close c) =
    [EvLock N_closedMutex; EvSend N_stopReadCh; EvSend N_stopWriteCh;
     EvSend N_stopReqCh; EvUnlock N_closedMutex].
Proof.
  destruct c. unfold_methods. intros ->.
  split_cases; intro H; try discriminate; reflexivity.
Qed.

(** C6 does not hold of [Close]: it sends on the stop channels with the
    closed-flag lock held.  On [open_conn] its events are: lock, the three
    sends, unlock. *)
Lemma Close_sends_holding_lock :
  events (Close open_conn) =
    [EvLock N_closedMutex; EvSend N_stopReadCh; EvSend N_stopWriteCh;
     EvSend N_stopReqCh; EvUnlock N_closedMutex] /\
  send_under_lock 0 (events (Close open_conn)) = true /\
  ~ (forall c, send_under_lock 0 (events (Close c)) = false).
Proof.
  split; [reflexivity|]. split; [reflexivity|].
  intro H. specialize (H open_conn). discriminate H.
Qed.

Lemma send_under_lock_own (ch : chanName) (own : list event) :
  own = [] \/ own = [EvRecv ch] ->
  forall t held, send_under_lock held (t ++ own) = send_under_lock held t.
Proof.
  intros Hown t. induction t as [|e t IH]; intro held.
  - destruct Hown as [-> | ->]; reflexivity.
  - destruct e; simpl; rewrite IH; reflexivity.
Qed.

Lemma awaitWrite_own (c : Conn) :
  (events (awaitWrite c) = [] \/ events (awaitWrite c) = [EvRecv N_writeResponsesCh]) /\
  mutexes (after (awaitWrite c)) = mutexes c.
Proof.
  destruct c. unfold mutexes. unfold_methods. split_cases; split; auto.
Qed.

Lemma awaitRead_own (c : Conn) :
  (events (awaitRead c) = [] \/ events (awaitRead c) = [EvRecv N_readResponsesCh]) /\
  mutexes (after (awaitRead c)) = mutexes c.
Proof.
  destruct c. unfold mutexes. unfold_methods. split_cases; split; auto.
Qed.

Lemma Write_own (submitWrite : list byte -> M bool) (b : list byte) (c : Conn) :
  exists own,
    events (Write submitWrite b c) = events (submitWrite b c) ++ own /\
    (own = [] \/ own = [EvRecv N_writeResponsesCh]) /\
    mutexes (after (Write submitWrite b c)) = mutexes (after (submitWrite b c)).
Proof.
  unfold Write.
  destruct (outcome_cases (outcome (submitWrite b c))) as [[a Ha] | Hstuck].
  - rewrite (bind_Ret _ _ _ _ Ha). unfold events at 1, after at 1. simpl.
    destruct a.
    + destruct (awaitWrite_own (after (submitWrite b c))) as [Hown Hmu].
      exists (events (awaitWrite (after (submitWrite b c)))). repeat split; assumption.
    + exists []. repeat split. left. reflexivity.
  - destruct (bind_stuck (submitWrite b)
                (fun accepted => if accepted then awaitWrite else ret (0%Z, io_EOF))
                c Hstuck) as (Ha & He & _).
    exists []. rewrite He, Ha, app_nil_r. repeat split. left. reflexivity.
Qed.

Lemma Read_own (submitRead : list byte -> M bool) (b : list byte) (c : Conn) :
  exists own,
    events (Read submitRead b c) = events (submitRead b c) ++ own /\
    (own = [] \/ own = [EvRecv N_readResponsesCh]) /\
    mutexes (after (Read submitRead b c)) = mutexes (after (submitRead b c)).
Proof.
  unfold Read.
  destruct (outcome_cases (outcome (submitRead b c))) as [[a Ha] | Hstuck].
  - rewrite (bind_Ret _ _ _ _ Ha). unfold events at 1, after at 1. simpl.
    destruct a.
    + destruct (awaitRead_own (after (submitRead b c))) as [Hown Hmu].
      exists (events (awaitRead (after (submitRead b c)))). repeat split; assumption.
    + exists []. repeat split. left. reflexivity.
  - destruct (bind_stuck (submitRead b)
                (fun accepted => if accepted then awaitRead else ret (0%Z, io_EOF))
                c Hstuck) as (Ha & He & _).
    exists []. rewrite He, Ha, app_nil_r. repeat split. left. reflexivity.
Qed.

(** C6, as the code has it.  [Close] does hold a lock across channel sends:
    it takes the closed-flag lock on entry and gives it back on return, and
    a [Close] that returns on a Conn not yet closed has sent on the three
    stop channels in between, with the lock held; on a closed Conn it
    sends nothing.  No other operation does so in its own code: [isClosed]
    sends on no channel; the unimplemented methods take no lock and do
    nothing on a channel; and all that [Write] and [Read] do beyond their
    submission helper is at most one receive on their response channel:
    they take no lock, leave every mutex as the helper left it and send
    on no channel, so that they send under a lock exactly when the helper
    does. *)
Theorem only_first_Close_sends_under_lock
    (submitWrite submitRead : list byte -> M bool) (b : list byte) (c : Conn) :
  (closed c = false -> forall e, outcome (Close c) = Ret e ->
     events (Close c) =
       [EvLock N_closedMutex; EvSend N_stopReadCh; EvSend N_stopWriteCh;
        EvSend N_stopReqCh; EvUnlock N_closedMutex] /\
     send_under_lock 0 (events (Close c)) = true) /\
  (closed c = true ->
     sends (events (Close c)) = [] /\
     send_under_lock 0 (events (Close c)) = false) /\
  (sends (events (isClosed c)) = [] /\
   send_under_lock 0 (events (isClosed c)) = false) /\
  (exists own,
     events (Write submitWrite b c) = events (submitWrite b c) ++ own /\
     (own = [] \/ own = [EvRecv N_writeResponsesCh]) /\
     mutexes (after (Write submitWrite b c)) = mutexes (after (submitWrite b c)) /\
     send_under_lock 0 (events (Write submitWrite b c)) =
       send_under_lock 0 (events (submitWrite b c))) /\
  (exists own,
     events (Read submitRead b c) = events (submitRead b c) ++ own /\
     (own = [] \/ own = [EvRecv N_readResponsesCh]) /\
     mutexes (after (Read submitRead b c)) = mutexes (after (submitRead b c)) /\
     send_under_lock 0 (events (Read submitRead b c)) =
       send_under_lock 0 (events (submitRead b c))) /\
  (events (LocalAddr c) = [] /\ events (RemoteAddr c) = [] /\
   forall t, events (SetDeadline t c) = [] /\
             events (SetReadDeadline t c) = [] /\
             events (SetWriteDeadline t c) = []).
Proof.
  split; [|split; [|split; [|split; [|split]]]].
  - intros Hc e He. rewrite (Close_open_sends_locked c e Hc He).
    split; reflexivity.
  - intro Hc. split; [apply Close_closed_sends_nothing, Hc|].
    destruct c. unfold_methods. subst. split_cases; reflexivity.
  - split; [apply isClosed_restores|].
    destruct c. unfold_methods. split_cases; reflexivity.
  - destruct (Write_own submitWrite b c) as (own & He & Hown & Hmu).
    exists own. split; [exact He|]. split; [exact Hown|]. split; [exact Hmu|].
    rewrite He. apply (send_under_lock_own N_writeResponsesCh own Hown).
  - destruct (Read_own submitRead b c) as (own & He & Hown & Hmu).
    exists own. split; [exact He|]. split; [exact Hown|]. split; [exact Hmu|].
    rewrite He. apply (send_under_lock_own N_readResponsesCh own Hown).
  - repeat split.
Qed.

Lemma only_first_Close_sends_under_lock_witness :
  send_under_lock 0 (events (Close open_conn)) = true /\
  send_under_lock 0 (events (Close (closed_conn open_conn))) = false.
Proof.
  destruct (only_first_Close_sends_under_lock submit_unless_closed
              submit_unless_closed [] open_conn) as (Hopen & _).
  destruct (only_first_Close_sends_under_lock submit_unless_closed
              submit_unless_closed [] (closed_conn open_conn))
    as (_ & Hclosed & _).
  split.
  - apply (Hopen eq_refl err_nil eq_refl).
  - apply (Hclosed eq_refl).
Defined.

(** * Further properties of conn_intf.go *)

(** ** Close: lock, flag and signals *)

Lemma write_locked_parks (c : Conn) :
  writer (closedMutex c) = true ->
  outcome (isClosed c) = Block /\ outcome (Close c) = Block.
Proof.
  destruct c as [? ? ? ? ? ? ? ? ? ? ? ? ? ? ? ? ? ? cl [w r]].
  simpl. intros ->. split; reflexivity.
Qed.

Lemma Close_Ret_free (c : Conn) (e : error) :
  outcome (Close c) = Ret e -> RW.free (closedMutex c).
Proof.
  destruct c as [? ? ? ? ? ? ? ? ? ? ? ? ? ? ? ? ? ? cl [w r]].
  unfold_methods. destruct w; [discriminate|]. destruct r; [|discriminate].
  intros _. split; reflexivity.
Qed.

(** X1: whenever [Close] returns or panics, the deferred unlock has run:
    the closed-flag mutex is as it was before the call, held by nobody.
    Only a [Close] that parks can be holding it. *)
Theorem Close_releases_lock (c : Conn) :
  outcome (Close c) <> Block ->
  closedMutex (after (Close c)) = closedMutex c /\
  RW.free (closedMutex (after (Close c))).
Proof.
  destruct c as [? ? ? ? ? ? ? ? ? ? ? ? ? ? ? ? ? ? cl [w r]].
  unfold_methods. unfold RW.free.
  destruct w; simpl; [intro H; exfalso; apply H; reflexivity|].
  destruct r; simpl; [|intro H; exfalso; apply H; reflexivity].
  split_cases; intro H; try (exfalso; apply H; reflexivity);
    repeat split; reflexivity.
Qed.

Lemma Close_releases_lock_witness :
  closedMutex (after (Close conn_stop_closed)) = closedMutex conn_stop_closed /\
  RW.free (closedMutex (after (Close conn_stop_closed))).
Proof.
  apply (Close_releases_lock conn_stop_closed). discriminate.
Defined.

(** X2: the only panic of [Close] is Go's "send on closed channel", raised
    when one of the stop channels has been closed; the Conn was not closed
    before and its closed flag stays false. *)
Theorem Close_panics_only_on_closed_stop_channel (c : Conn) (msg : string) :
  outcome (Close c) = Panic msg ->
  msg = "send on closed channel" /\
  closed c = false /\ closed (after (Close c)) = false /\
  (chclosed (stopReadCh c) = true \/ chclosed (stopWriteCh c) = true \/
   chclosed (stopReqCh c) = true).
Proof.
  destruct c as [? ? ? ? ? sw ? ? ? ? sr ? ? sq ? ? ? ? cl [w r]].
  unfold_methods.
  destruct w; simpl; [discriminate|]. destruct r; simpl; [|discriminate].
  destruct cl; simpl; [discriminate|].
  destruct (chclosed sr) eqn:Hr; simpl.
  { intro H. injection H as <-. tauto. }
  split_cases; intro H; try discriminate; injection H as <-; tauto.
Qed.

Lemma Close_panics_only_on_closed_stop_channel_witness :
  closed (after (Close conn_stop_closed)) = false /\
  outcome (Close conn_stop_closed) = Panic "send on closed channel".
Proof.
  destruct (Close_panics_only_on_closed_stop_channel conn_stop_closed
              "send on closed channel" eq_refl) as (_ & _ & H & _).
  split; [exact H | reflexivity].
Defined.

(** X3: [Close] sets the closed flag last: if a call on an open Conn
    leaves the flag set, the call has returned nil and all three stop
    signals have gone out. *)
Theorem Close_sets_flag_after_signals (c : Conn) :
  closed c = false -> closed (after (Close c)) = true ->
  outcome (Close c) = Ret err_nil /\
  sends (events (Close c)) = stop_signals.
Proof.
  destruct c. unfold_methods. intros ->.
  split_cases; intro H; try discriminate; split; reflexivity.
Qed.

Lemma Close_sets_flag_after_signals_witness :
  outcome (Close open_conn) = Ret err_nil /\
  sends (events (Close open_conn)) = stop_signals.
Proof.
  apply (Close_sets_flag_after_signals open_conn); reflexivity.
Defined.

(** X4: a [Close] that parks although the mutex was free is parked on a
    stop-channel send with the write lock held and the flag unset; from
    then on every [isClosed] and every further [Close] parks as well. *)
Theorem parked_Close_blocks_later_calls (c : Conn) :
  RW.free (closedMutex c) -> outcome (Close c) = Block ->
  writer (closedMutex (after (Close c))) = true /\
  closed (after (Close c)) = false /\
  outcome (isClosed (after (Close c))) = Block /\
  outcome (Close (after (Close c))) = Block.
Proof.
  intros Hfree Hblock.
  assert (H : writer (closedMutex (after (Close c))) = true /\
              closed (after (Close c)) = false).
  { revert Hfree Hblock.
    destruct c as [? ? ? ? ? ? ? ? ? ? ? ? ? ? ? ? ? ? cl [w r]].
    unfold RW.free. unfold_methods. intros [-> ->]. simpl.
    destruct cl; simpl; split_cases; intro H; try discriminate;
      split; reflexivity. }
  destruct H as [Hw Hc].
  destruct (write_locked_parks _ Hw) as [Hi Hcl].
  repeat split; assumption.
Qed.

Lemma parked_Close_blocks_later_calls_witness :
  outcome (isClosed (after (Close conn_stop_full))) = Block /\
  outcome (Close (after (Close conn_stop_full))) = Block.
Proof.
  destruct (parked_Close_blocks_later_calls conn_stop_full) as (_ & _ & Hi & Hc).
  - split; reflexivity.
  - reflexivity.
  - split; assumption.
Defined.

(** X5: [Close] signals the read processor first, the write processor
    second and the request issuer last: the sends of any call, however it
    ends, are the first [k] of these three. *)
Theorem Close_sends_in_order (c : Conn) :
  exists k, sends (events (Close c)) = firstn k stop_signals.
Proof.
  destruct c. unfold_methods.
  split_cases;
    first [ exists 0%nat; reflexivity | exists 1%nat; reflexivity
          | exists 2%nat; reflexivity | exists 3%nat; reflexivity ].
Qed.

(** X6: a [Close] that returns leaves the Conn closed and readable: the
    next [isClosed] returns true. *)
Theorem isClosed_after_Close (c : Conn) (e : error) :
  outcome (Close c) = Ret e ->
  outcome (isClosed (after (Close c))) = Ret true.
Proof.
  intro H.
  destruct (Close_restores c e H) as [Hc Hm].
  destruct (Close_Ret_free c e H) as [Hw _].
  rewrite isClosed_returns by (rewrite Hm; exact Hw).
  unfold outcome. simpl. rewrite Hc. reflexivity.
Qed.

Lemma isClosed_after_Close_witness :
  outcome (isClosed (after (Close open_conn))) = Ret true.
Proof.
  apply (isClosed_after_Close open_conn err_nil). reflexivity.
Defined.

Lemma Close_frame (c : Conn) :
  writeRequestsCh (after (Close c)) = writeRequestsCh c /\
  writeResponsesCh (after (Close c)) = writeResponsesCh c /\
  readRequestsCh (after (Close c)) = readRequestsCh c /\
  readResponsesCh (after (Close c)) = readResponsesCh c.
Proof.
  destruct c. unfold_methods. split_cases; repeat split.
Qed.

Lemma awaitWrite_outcome (c : Conn) :
  outcome (awaitWrite c) =
    match Chan.recv rwResponse_zero (writeResponsesCh c) with
    | Ret (r, ok, _) => Ret (if ok then (n r, err r) else (0%Z, io_EOF))
    | Block => Block
    | Panic s => Panic s
    end.
Proof.
  unfold awaitWrite, bind, recv, outcome. simpl.
  destruct (Chan.recv rwResponse_zero (writeResponsesCh c)) as [[[r ok] ch']| |s];
    try reflexivity.
  destruct ok; reflexivity.
Qed.

Lemma awaitRead_outcome (c : Conn) :
  outcome (awaitRead c) =
    match Chan.recv rwResponse_zero (readResponsesCh c) with
    | Ret (r, ok, _) => Ret (if ok then (n r, err r) else (0%Z, io_EOF))
    | Block => Block
    | Panic s => Panic s
    end.
Proof.
  unfold awaitRead, bind, recv, outcome. simpl.
  destruct (Chan.recv rwResponse_zero (readResponsesCh c)) as [[[r ok] ch']| |s];
    try reflexivity.
  destruct ok; reflexivity.
Qed.

Lemma recv_cases {A} (zero : A) (ch : chan A) :
  (Chan.recv zero ch = Block /\ chclosed ch = false /\ Chan.pending ch = []) \/
  (exists ch', Chan.recv zero ch = Ret (zero, false, ch') /\
               chclosed ch = true /\ buf ch = []) \/
  (exists r rest ch', Chan.recv zero ch = Ret (r, true, ch') /\
                      Chan.pending ch = r :: rest /\ Chan.pending ch' = rest).
Proof.
  destruct ch as [b cp sq rq cl]. unfold Chan.recv, Chan.pending. simpl.
  destruct cl, b as [|v q], sq as [|s ss]; simpl;
    try (right; left; eexists; repeat split; fail);
    try (left; repeat split; fail);
    right; right; do 3 eexists;
    (split; [reflexivity|]); simpl; (split; [reflexivity|]);
    rewrite <- ?app_assoc; reflexivity.
Qed.

(** ** Close and the callers waiting for a response *)

(** X7: [Close] touches neither the request nor the response channels, so
    by itself it wakes nobody: a caller of [Write] or [Read] waiting for
    its response is served, or stays parked, after [Close] exactly as
    before it. *)
Theorem Close_leaves_waiting_callers (c : Conn) :
  writeRequestsCh (after (Close c)) = writeRequestsCh c /\
  writeResponsesCh (after (Close c)) = writeResponsesCh c /\
  readRequestsCh (after (Close c)) = readRequestsCh c /\
  readResponsesCh (after (Close c)) = readResponsesCh c /\
  outcome (awaitWrite (after (Close c))) = outcome (awaitWrite c) /\
  outcome (awaitRead (after (Close c))) = outcome (awaitRead c).
Proof.
  destruct (Close_frame c) as (H1 & H2 & H3 & H4).
  repeat split; try assumption.
  - rewrite !awaitWrite_outcome, H2. reflexivity.
  - rewrite !awaitRead_outcome, H4. reflexivity.
Qed.

(** ** What Write and Read can return *)

Lemma awaitWrite_Ret_inv (c : Conn) (v : Z * error) :
  outcome (awaitWrite c) = Ret v ->
  v = (0%Z, io_EOF) \/
  exists r rest, Chan.pending (writeResponsesCh c) = r :: rest /\ v = (n r, err r).
Proof.
  rewrite awaitWrite_outcome.
  destruct (recv_cases rwResponse_zero (writeResponsesCh c))
    as [(-> & _) | [(ch' & -> & _) | (r & rest & ch' & -> & Hp & _)]].
  - discriminate.
  - intro H. left. congruence.
  - intro H. right. exists r, rest. split; [exact Hp | congruence].
Qed.

Lemma awaitRead_Ret_inv (c : Conn) (v : Z * error) :
  outcome (awaitRead c) = Ret v ->
  v = (0%Z, io_EOF) \/
  exists r rest, Chan.pending (readResponsesCh c) = r :: rest /\ v = (n r, err r).
Proof.
  rewrite awaitRead_outcome.
  destruct (recv_cases rwResponse_zero (readResponsesCh c))
    as [(-> & _) | [(ch' & -> & _) | (r & rest & ch' & -> & Hp & _)]].
  - discriminate.
  - intro H. left. congruence.
  - intro H. right. exists r, rest. split; [exact Hp | congruence].
Qed.

(** X8: [Write] and [Read] make up no result of their own: whatever the
    submission helper does, a value they return is either [(0, io.EOF)] or
    the count and error of the oldest response that was waiting on the
    response channel when the submission had been accepted. *)
Theorem Write_Read_return_EOF_or_oldest_response
    (submitWrite submitRead : list byte -> M bool) (b : list byte) (c : Conn)
    (v : Z * error) :
  (outcome (Write submitWrite b c) = Ret v ->
   v = (0%Z, io_EOF) \/
   exists r rest,
     outcome (submitWrite b c) = Ret true /\
     Chan.pending (writeResponsesCh (after (submitWrite b c))) = r :: rest /\
     v = (n r, err r)) /\
  (outcome (Read submitRead b c) = Ret v ->
   v = (0%Z, io_EOF) \/
   exists r rest,
     outcome (submitRead b c) = Ret true /\
     Chan.pending (readResponsesCh (after (submitRead b c))) = r :: rest /\
     v = (n r, err r)).
Proof.
  split; intro H.
  - unfold Write in H. apply bind_Ret_inv in H.
    destruct H as ([|] & Ha & Hv & _).
    + apply awaitWrite_Ret_inv in Hv.
      destruct Hv as [-> | (r & rest & Hp & ->)]; [left; reflexivity|].
      right. exists r, rest. repeat split; assumption.
    + left. unfold ret, outcome in Hv. simpl in Hv. congruence.
  - unfold Read in H. apply bind_Ret_inv in H.
    destruct H as ([|] & Ha & Hv & _).
    + apply awaitRead_Ret_inv in Hv.
      destruct Hv as [-> | (r & rest & Hp & ->)]; [left; reflexivity|].
      right. exists r, rest. repeat split; assumption.
    + left. unfold ret, outcome in Hv. simpl in Hv. congruence.
Qed.

Lemma Write_Read_return_EOF_or_oldest_response_witness :
  (5%Z, err_nil) = (0%Z, io_EOF) \/
  exists r rest,
    outcome (submit_always [] (conn_with_responses [mk_rwResponse 5 err_nil]))
      = Ret true /\
    Chan.pending
      (writeResponsesCh
         (after (submit_always [] (conn_with_responses [mk_rwResponse 5 err_nil]))))
      = r :: rest /\
    (5%Z, err_nil) = (n r, err r).
Proof.
  apply (Write_Read_return_EOF_or_oldest_response submit_always submit_always []
           (conn_with_responses [mk_rwResponse 5 err_nil]) (5%Z, err_nil)).
  reflexivity.
Defined.

(** X9: the wait for a response never panics, and it parks in exactly one
    situation: the response channel is open and nothing is waiting on
    it. *)
Theorem await_parks_iff_open_and_empty (c : Conn) :
  (outcome (awaitWrite c) = Block <->
   chclosed (writeResponsesCh c) = false /\
   Chan.pending (writeResponsesCh c) = []) /\
  (outcome (awaitRead c) = Block <->
   chclosed (readResponsesCh c) = false /\
   Chan.pending (readResponsesCh c) = []) /\
  (forall msg, outcome (awaitWrite c) <> Panic msg) /\
  (forall msg, outcome (awaitRead c) <> Panic msg).
Proof.
  rewrite awaitWrite_outcome, awaitRead_outcome.
  destruct (recv_cases rwResponse_zero (writeResponsesCh c))
    as [(-> & Hc & Hp) | [(ch' & -> & Hc & Hb) | (r & rest & ch' & -> & Hp & _)]];
  destruct (recv_cases rwResponse_zero (readResponsesCh c))
    as [(-> & Hc' & Hp') | [(ch2 & -> & Hc' & Hb') | (r' & rest' & ch2 & -> & Hp' & _)]];
  repeat split; intros; try discriminate; try tauto; try congruence;
    try (destruct H; congruence).
Qed.

Lemma await_parks_iff_open_and_empty_witness :
  outcome (awaitWrite open_conn) = Block /\ outcome (awaitRead open_conn) = Block.
Proof.
  destruct (await_parks_iff_open_and_empty open_conn) as (Hw & Hr & _).
  split; [apply Hw | apply Hr]; split; reflexivity.
Defined.

Lemma awaitWrite_after (c : Conn) :
  after (awaitWrite c) =
    set_writeResponsesCh (after_recv rwResponse_zero (writeResponsesCh c)) c.
Proof.
  unfold awaitWrite, bind, recv, after, after_recv. simpl.
  destruct (Chan.recv rwResponse_zero (writeResponsesCh c)) as [[[r ok] ch']| |s];
    simpl; try (symmetry; apply set_writeResponsesCh_same).
  destruct ok; reflexivity.
Qed.

Lemma awaitRead_after (c : Conn) :
  after (awaitRead c) =
    set_readResponsesCh (after_recv rwResponse_zero (readResponsesCh c)) c.
Proof.
  unfold awaitRead, bind, recv, after, after_recv. simpl.
  destruct (Chan.recv rwResponse_zero (readResponsesCh c)) as [[[r ok] ch']| |s];
    simpl; try (symmetry; apply set_readResponsesCh_same).
  destruct ok; reflexivity.
Qed.

(** X10: the two directions are independent.  Waiting for a write response
    does not change what a wait for a read response finds, nor the other
    way round, and the two waits leave the same Conn behind in either
    order. *)
Theorem waits_are_independent (c : Conn) :
  outcome (awaitRead (after (awaitWrite c))) = outcome (awaitRead c) /\
  outcome (awaitWrite (after (awaitRead c))) = outcome (awaitWrite c) /\
  after (awaitRead (after (awaitWrite c))) = after (awaitWrite (after (awaitRead c))).
Proof.
  rewrite !awaitRead_outcome, !awaitWrite_outcome, !awaitRead_after, !awaitWrite_after.
  destruct c. simpl. repeat split.
Qed.

(** ** isClosed *)

(** X11: [isClosed] only reads.  However it ends, it leaves the Conn
    exactly as it found it and sends on no channel.  While a writer holds
    the closed-flag mutex it parks; when nobody holds the mutex it returns
    the closed flag, having taken and given back the read lock and done
    nothing else; whenever it returns, no writer held the mutex and the
    value is the closed flag.  It never panics. *)
Theorem isClosed_only_reads (c : Conn) :
  after (isClosed c) = c /\
  sends (events (isClosed c)) = [] /\
  (writer (closedMutex c) = true -> isClosed c = (Block, c, [])) /\
  (RW.free (closedMutex c) ->
   isClosed c = (Ret (closed c), c, [EvRLock N_closedMutex; EvRUnlock N_closedMutex])) /\
  (forall f, outcome (isClosed c) = Ret f ->
     f = closed c /\ writer (closedMutex c) = false /\
     events (isClosed c) = [EvRLock N_closedMutex; EvRUnlock N_closedMutex]) /\
  (forall msg, outcome (isClosed c) <> Panic msg).
Proof.
  destruct c as [? ? ? ? ? ? ? ? ? ? ? ? ? ? ? ? ? ? cl [w r]].
  unfold RW.free. simpl.
  split; [destruct w; reflexivity|].
  split; [destruct w; reflexivity|].
  split; [intros ->; reflexivity|].
  split; [intros [-> ->]; reflexivity|].
  split.
  - intros f H. apply isClosed_Ret_inv in H. simpl in H.
    destruct H as [-> ->]. repeat split.
  - intro msg. destruct w; discriminate.
Qed.

Lemma isClosed_only_reads_witness :
  isClosed (after (Close conn_stop_full)) = (Block, after (Close conn_stop_full), []) /\
  isClosed open_conn =
    (Ret false, open_conn, [EvRLock N_closedMutex; EvRUnlock N_closedMutex]).
Proof.
  destruct (isClosed_only_reads (after (Close conn_stop_full))) as (_ & _ & Hb & _).
  destruct (isClosed_only_reads open_conn) as (_ & _ & _ & Hr & _).
  split; [apply Hb; reflexivity | apply Hr; split; reflexivity].
Defined.

(** * Package nattraversal: the traversal id of a message *)

Lemma byte_to_Z_range (b : byte) : (0 <= nattraversal.byte_to_Z b < 256)%Z.
Proof.
  unfold nattraversal.byte_to_Z. pose proof (Byte.to_N_bounded b). lia.
Qed.

Lemma byte_of_to_Z (b : byte) : nattraversal.byte_of_Z (nattraversal.byte_to_Z b) = b.
Proof.
  unfold nattraversal.byte_of_Z.
  rewrite Z.mod_small by apply byte_to_Z_range.
  unfold nattraversal.byte_to_Z. rewrite N2Z.id, Byte.of_to_N. reflexivity.
Qed.

Lemma byte_to_of_Z (z : Z) : nattraversal.byte_to_Z (nattraversal.byte_of_Z z) = (z mod 256)%Z.
Proof.
  unfold nattraversal.byte_of_Z, nattraversal.byte_to_Z.
  pose proof (Z.mod_pos_bound z 256 eq_refl) as Hm.
  destruct (Byte.of_N (Z.to_N (z mod 256))) as [b|] eqn:E.
  - apply Byte.to_of_N in E. rewrite E. apply Z2N.id. lia.
  - apply Byte.of_N_None_iff in E. lia.
Qed.

Lemma lor_shiftl_add (a b k : Z) :
  (0 <= a < 2 ^ k)%Z -> (0 <= k)%Z ->
  Z.lor a (Z.shiftl b k) = (a + b * 2 ^ k)%Z.
Proof.
  intros Ha Hk.
  assert (Hdisj : Z.land a (Z.shiftl b k) = 0%Z).
  { apply Z.bits_inj'. intros i Hi. rewrite Z.land_spec, Z.bits_0.
    destruct (Z.ltb_spec i k) as [Hlt | Hge].
    - rewrite Z.shiftl_spec_low by assumption. apply andb_false_r.
    - rewrite <- (Z.mod_small a (2 ^ k)) by assumption.
      rewrite Z.mod_pow2_bits_high by lia. reflexivity. }
  pose proof (Zbitwise.Z.add_lor_land a (Z.shiftl b k)) as Hadd.
  rewrite Hdisj in Hadd. rewrite Z.shiftl_mul_pow2 in Hadd |- * by assumption. lia.
Qed.

Lemma Uint32_value (b0 b1 b2 b3 : Z) :
  (0 <= b0 < 256)%Z -> (0 <= b1 < 256)%Z -> (0 <= b2 < 256)%Z -> (0 <= b3 < 256)%Z ->
  Z.lor (Z.lor (Z.lor b0 (nattraversal.u32 (Z.shiftl b1 8)))
               (nattraversal.u32 (Z.shiftl b2 16)))
        (nattraversal.u32 (Z.shiftl b3 24)) =
  (b0 + b1 * 2 ^ 8 + b2 * 2 ^ 16 + b3 * 2 ^ 24)%Z.
Proof.
  intros H0 H1 H2 H3. unfold nattraversal.u32.
  rewrite !Z.shiftl_mul_pow2 by lia.
  rewrite !Z.mod_small by lia.
  rewrite <- !Z.shiftl_mul_pow2 by lia.
  rewrite (lor_shiftl_add b0 b1 8) by lia.
  rewrite (lor_shiftl_add _ b2 16) by lia.
  rewrite (lor_shiftl_add _ b3 24) by lia.
  rewrite ?Z.shiftl_mul_pow2 by lia. reflexivity.
Qed.

Lemma bytes_of_value (v : Z) :
  nattraversal.is_uint32 v ->
  (v mod 256 + (Z.shiftr v 8 mod 256) * 2 ^ 8 + (Z.shiftr v 16 mod 256) * 2 ^ 16 +
   (Z.shiftr v 24 mod 256) * 2 ^ 24 = v)%Z.
Proof.
  unfold nattraversal.is_uint32. intro Hv.
  rewrite !Z.shiftr_div_pow2 by lia.
  change (2 ^ 8)%Z with 256%Z. change (2 ^ 16)%Z with 65536%Z.
  change (2 ^ 24)%Z with 16777216%Z. change (2 ^ 32)%Z with 4294967296%Z in Hv.
  Z.to_euclidean_division_equations. lia.
Qed.

Lemma value_of_bytes (b0 b1 b2 b3 : Z) :
  (0 <= b0 < 256)%Z -> (0 <= b1 < 256)%Z -> (0 <= b2 < 256)%Z -> (0 <= b3 < 256)%Z ->
  let v := (b0 + b1 * 2 ^ 8 + b2 * 2 ^ 16 + b3 * 2 ^ 24)%Z in
  nattraversal.is_uint32 v /\
  (v mod 256 = b0 /\ Z.shiftr v 8 mod 256 = b1 /\
   Z.shiftr v 16 mod 256 = b2 /\ Z.shiftr v 24 mod 256 = b3)%Z.
Proof.
  intros H0 H1 H2 H3 v. subst v. unfold nattraversal.is_uint32.
  rewrite !Z.shiftr_div_pow2 by lia.
  change (2 ^ 8)%Z with 256%Z. change (2 ^ 16)%Z with 65536%Z.
  change (2 ^ 24)%Z with 16777216%Z. change (2 ^ 32)%Z with 4294967296%Z.
  repeat split; try lia; Z.to_euclidean_division_equations; lia.
Qed.

Section Codec.
Import nattraversal.

Lemma backing_view (k : nat) (arr : list byte) : backing (view k arr) = arr.
Proof. apply firstn_skipn. Qed.

Lemma capacity_four (msg : slice) :
  (4 <= capacity msg)%nat ->
  exists a0 a1 a2 a3 tl, backing msg = a0 :: a1 :: a2 :: a3 :: tl.
Proof.
  unfold capacity. destruct (backing msg) as [|a0 [|a1 [|a2 [|a3 tl]]]];
    simpl; intro H; try lia.
  repeat eexists.
Qed.

Lemma reslice_head (msg : slice) (a0 a1 a2 a3 : byte) (tl : list byte) :
  backing msg = a0 :: a1 :: a2 :: a3 :: tl ->
  reslice msg 0 4 = Ret (mk_slice [a0; a1; a2; a3] tl).
Proof.
  unfold reslice, capacity. intros ->. reflexivity.
Qed.

Lemma reslice_head_short (msg : slice) :
  (capacity msg < 4)%nat -> reslice msg 0 4 = Panic "slice bounds out of range".
Proof.
  unfold reslice. intro H. apply Nat.leb_gt in H. rewrite H. reflexivity.
Qed.

Lemma setTraversalId_value (msg : slice) (id : Z) (a0 a1 a2 a3 : byte) (tl : list byte) :
  backing msg = a0 :: a1 :: a2 :: a3 :: tl ->
  setTraversalId msg id = Ret (view (len msg) (id_bytes id ++ tl)).
Proof.
  intro H. unfold setTraversalId. rewrite (reslice_head _ _ _ _ _ _ H). reflexivity.
Qed.

Lemma getTraversalId_value (msg : slice) (a0 a1 a2 a3 : byte) (tl : list byte) :
  backing msg = a0 :: a1 :: a2 :: a3 :: tl ->
  getTraversalId msg = Ret (bytes_id a0 a1 a2 a3).
Proof.
  intro H. unfold getTraversalId. rewrite (reslice_head _ _ _ _ _ _ H).
  unfold and_then, Uint32. simpl. f_equal.
  apply Uint32_value; apply byte_to_Z_range.
Qed.

Lemma bytes_id_of_id_bytes (id : Z) :
  is_uint32 id ->
  bytes_id (byte_of_Z id) (byte_of_Z (Z.shiftr id 8)) (byte_of_Z (Z.shiftr id 16))
           (byte_of_Z (Z.shiftr id 24)) = id.
Proof.
  intro H. unfold bytes_id. rewrite !byte_to_of_Z. apply bytes_of_value, H.
Qed.

Lemma byte_of_Z_eq (z : Z) (b : byte) :
  (z mod 256)%Z = byte_to_Z b -> byte_of_Z z = b.
Proof.
  intro H. unfold byte_of_Z. rewrite H. unfold byte_to_Z.
  rewrite N2Z.id, Byte.of_to_N. reflexivity.
Qed.

Lemma id_bytes_of_bytes_id (a0 a1 a2 a3 : byte) :
  is_uint32 (bytes_id a0 a1 a2 a3) /\
  id_bytes (bytes_id a0 a1 a2 a3) = [a0; a1; a2; a3].
Proof.
  destruct (value_of_bytes _ _ _ _ (byte_to_Z_range a0) (byte_to_Z_range a1)
              (byte_to_Z_range a2) (byte_to_Z_range a3)) as (Hr & H0 & H1 & H2 & H3).
  split; [exact Hr|].
  unfold id_bytes, bytes_id.
  rewrite (byte_of_Z_eq _ a0 H0), (byte_of_Z_eq _ a1 H1),
    (byte_of_Z_eq _ a2 H2), (byte_of_Z_eq _ a3 H3).
  reflexivity.
Qed.

Lemma idToBytes_value (id : Z) : idToBytes id = Ret (mk_slice (id_bytes id) []).
Proof. reflexivity. Qed.

Lemma getData_value (msg : slice) :
  getData msg =
    if (4 <=? len msg)%nat
    then Ret (mk_slice (skipn 4 (elems msg)) (spare msg))
    else Panic "slice bounds out of range".
Proof.
  destruct msg as [e sp].
  destruct e as [|a0 [|a1 [|a2 [|a3 rest]]]]; try reflexivity.
  unfold getData, reslice, capacity, backing, len.
  cbn [elems spare List.length app skipn Nat.leb andb Nat.sub].
  rewrite length_app.
  replace (List.length rest <=? List.length rest + List.length sp)%nat with true
    by (symmetry; apply Nat.leb_le; lia).
  rewrite Nat.sub_0_r. cbn [andb].
  rewrite firstn_app, Nat.sub_diag, firstn_all. cbn [firstn].
  rewrite app_nil_r, skipn_app, skipn_all, Nat.sub_diag. reflexivity.
Qed.

Lemma len_view (k : nat) (arr : list byte) :
  (k <= List.length arr)%nat -> len (view k arr) = k.
Proof. intro H. unfold len, view. simpl. apply firstn_length_le, H. Qed.

Lemma len_le_capacity (msg : slice) : (len msg <= capacity msg)%nat.
Proof. unfold len, capacity, backing. rewrite length_app. lia. Qed.

(** X12: writing a traversal id into a message and reading it back gives
    the id, for every uint32 id and every message whose backing array has
    room for the four bytes. *)
Theorem traversal_id_round_trip (msg : message) (id : Z) :
  (4 <= capacity msg)%nat -> is_uint32 id ->
  exists msg', setTraversalId msg id = Ret msg' /\ getTraversalId msg' = Ret id.
Proof.
  intros Hcap Hid.
  destruct (capacity_four msg Hcap) as (a0 & a1 & a2 & a3 & tl & Hb).
  exists (view (len msg) (id_bytes id ++ tl)). split.
  - apply (setTraversalId_value msg id a0 a1 a2 a3 tl Hb).
  - rewrite (getTraversalId_value _ (byte_of_Z id) (byte_of_Z (Z.shiftr id 8))
               (byte_of_Z (Z.shiftr id 16)) (byte_of_Z (Z.shiftr id 24)) tl).
    + rewrite bytes_id_of_id_bytes by exact Hid. reflexivity.
    + apply backing_view.
Qed.

Lemma traversal_id_round_trip_witness :
  exists msg',
    setTraversalId (mk_slice [x0a; x0b] [x0c; x0d; x0e]) 4294967295 = Ret msg' /\
    getTraversalId msg' = Ret 4294967295%Z.
Proof.
  apply (traversal_id_round_trip (mk_slice [x0a; x0b] [x0c; x0d; x0e]) 4294967295).
  - cbv. lia.
  - unfold is_uint32. lia.
Defined.

(** X13: [setTraversalId] writes the first four bytes of the backing array
    and nothing else: the message keeps its length and capacity, every
    byte from the fifth on, and hence its data. *)
Theorem setTraversalId_keeps_data (msg msg' : message) (id : Z) :
  setTraversalId msg id = Ret msg' ->
  len msg' = len msg /\ capacity msg' = capacity msg /\
  skipn 4 (backing msg') = skipn 4 (backing msg) /\
  getData msg' = getData msg.
Proof.
  intro H.
  destruct (Nat.le_gt_cases 4 (capacity msg)) as [Hcap | Hcap].
  2:{ unfold setTraversalId in H. rewrite (reslice_head_short msg Hcap) in H.
      discriminate H. }
  destruct (capacity_four msg Hcap) as (a0 & a1 & a2 & a3 & tl & Hb).
  rewrite (setTraversalId_value msg id a0 a1 a2 a3 tl Hb) in H.
  assert (Hm : msg' = view (len msg) (id_bytes id ++ tl)) by congruence.
  clear H.
  assert (Hlen : len msg' = len msg).
  { rewrite Hm. apply len_view. pose proof (len_le_capacity msg) as Hle.
    unfold capacity in Hle. rewrite Hb in Hle. exact Hle. }
  assert (Hskip : skipn 4 (backing msg') = skipn 4 (backing msg)).
  { rewrite Hm, backing_view, Hb. reflexivity. }
  assert (Hsame : capacity msg' = capacity msg).
  { unfold capacity. rewrite Hm, backing_view, Hb. reflexivity. }
  split; [exact Hlen|]. split; [exact Hsame|]. split; [exact Hskip|].
  unfold getData, reslice. rewrite Hlen, Hsame.
  destruct ((4 <=? len msg)%nat && (len msg <=? capacity msg)%nat) eqn:E;
    [|reflexivity].
  apply andb_prop in E. destruct E as [E _]. apply Nat.leb_le in E.
  f_equal. f_equal.
  - rewrite Hskip. reflexivity.
  - replace (len msg) with ((len msg - 4) + 4)%nat by lia.
    rewrite <- !skipn_skipn, Hskip. reflexivity.
Qed.

Lemma setTraversalId_keeps_data_witness :
  getData (mk_slice [x07; x00; x00; x00; x68; x69] [x00]) =
  getData (mk_slice [x0a; x0b; x0c; x0d; x68; x69] [x00]).
Proof.
  apply (setTraversalId_keeps_data (mk_slice [x0a; x0b; x0c; x0d; x68; x69] [x00])
           (mk_slice [x07; x00; x00; x00; x68; x69] [x00]) 7).
  reflexivity.
Defined.

(** X14: a message made of [idToBytes id] followed by a payload decodes to
    that id and that payload; [idToBytes] always gives exactly four bytes
    and never panics. *)
Theorem header_then_payload (id : Z) (data sp : list byte) :
  is_uint32 id ->
  exists hdr,
    idToBytes id = Ret hdr /\ len hdr = 4%nat /\ capacity hdr = 4%nat /\
    getTraversalId (mk_slice (elems hdr ++ data) sp) = Ret id /\
    getData (mk_slice (elems hdr ++ data) sp) = Ret (mk_slice data sp).
Proof.
  intro Hid. exists (mk_slice (id_bytes id) []).
  split; [apply idToBytes_value|]. split; [reflexivity|]. split; [reflexivity|].
  split.
  - rewrite (getTraversalId_value _ (byte_of_Z id) (byte_of_Z (Z.shiftr id 8))
               (byte_of_Z (Z.shiftr id 16)) (byte_of_Z (Z.shiftr id 24)) (data ++ sp))
      by reflexivity.
    rewrite bytes_id_of_id_bytes by exact Hid. reflexivity.
  - rewrite getData_value. reflexivity.
Qed.

Lemma header_then_payload_witness :
  exists hdr,
    idToBytes 305419896 = Ret hdr /\ len hdr = 4%nat /\ capacity hdr = 4%nat /\
    getTraversalId (mk_slice (elems hdr ++ [x52; x65]) []) = Ret 305419896%Z /\
    getData (mk_slice (elems hdr ++ [x52; x65]) []) = Ret (mk_slice [x52; x65] []).
Proof.
  apply (header_then_payload 305419896 [x52; x65] []). unfold is_uint32. lia.
Defined.

(** X15: the bounds.  [getData] panics exactly on a message shorter than
    four bytes, and otherwise returns the bytes after the fourth;
    [getTraversalId] and [setTraversalId] panic exactly when the backing
    array is shorter than four bytes, whatever the message's length. *)
Theorem message_bounds (msg : message) (id : Z) :
  ((len msg < 4)%nat <-> getData msg = Panic "slice bounds out of range") /\
  ((4 <= len msg)%nat ->
   getData msg = Ret (mk_slice (skipn 4 (elems msg)) (spare msg))) /\
  ((capacity msg < 4)%nat <-> getTraversalId msg = Panic "slice bounds out of range") /\
  ((capacity msg < 4)%nat <-> setTraversalId msg id = Panic "slice bounds out of range") /\
  ((4 <= capacity msg)%nat ->
   exists v msg', getTraversalId msg = Ret v /\ is_uint32 v /\
                  setTraversalId msg id = Ret msg').
Proof.
  assert (Hwide : (4 <= capacity msg)%nat ->
            exists v msg', getTraversalId msg = Ret v /\ is_uint32 v /\
                           setTraversalId msg id = Ret msg').
  { intro Hcap.
    destruct (capacity_four msg Hcap) as (a0 & a1 & a2 & a3 & tl & Hb).
    exists (bytes_id a0 a1 a2 a3), (view (len msg) (id_bytes id ++ tl)).
    split; [apply (getTraversalId_value _ _ _ _ _ _ Hb)|].
    split; [apply id_bytes_of_bytes_id|].
    apply (setTraversalId_value _ _ _ _ _ _ _ Hb). }
  rewrite getData_value.
  split; [|split; [|split; [|split]]].
  - destruct (Nat.leb_spec 4 (len msg)); split; intro; try lia; try discriminate;
      reflexivity.
  - intro H. apply Nat.leb_le in H. rewrite H. reflexivity.
  - split.
    + intro H. unfold getTraversalId. rewrite (reslice_head_short msg H). reflexivity.
    + intro H. destruct (Nat.le_gt_cases 4 (capacity msg)) as [Hcap | Hcap]; [|exact Hcap].
      destruct (Hwide Hcap) as (v & msg' & Hv & _). congruence.
  - split.
    + intro H. unfold setTraversalId. rewrite (reslice_head_short msg H). reflexivity.
    + intro H. destruct (Nat.le_gt_cases 4 (capacity msg)) as [Hcap | Hcap]; [|exact Hcap].
      destruct (Hwide Hcap) as (v & msg' & _ & _ & Hs). congruence.
  - exact Hwide.
Qed.

Lemma message_bounds_witness :
  getData (mk_slice [x01; x02; x03] []) = Panic "slice bounds out of range" /\
  getTraversalId (mk_slice [x01; x02; x03] []) = Panic "slice bounds out of range" /\
  getData (mk_slice [x01; x02; x03; x04; x05] []) = Ret (mk_slice [x05] []).
Proof.
  destruct (message_bounds (mk_slice [x01; x02; x03] []) 0) as (Hd & _ & Hg & _).
  destruct (message_bounds (mk_slice [x01; x02; x03; x04; x05] []) 0) as (_ & Hl & _).
  split; [apply Hd; cbv; lia|]. split; [apply Hg; cbv; lia|].
  apply Hl. cbv. lia.
Defined.

(** X16: [getTraversalId] looks at the backing array, not at the message's
    length: on a message shorter than four bytes whose array is long
    enough it returns an id, made of the bytes found there, where
    [getData] panics. *)
Theorem short_message_has_an_id (msg : message) :
  (len msg < 4)%nat -> (4 <= capacity msg)%nat ->
  exists v,
    getTraversalId msg = Ret v /\
    getTraversalId (view 4 (backing msg)) = Ret v /\
    idToBytes v = Ret (mk_slice (firstn 4 (backing msg)) []) /\
    getData msg = Panic "slice bounds out of range".
Proof.
  intros Hlen Hcap.
  destruct (capacity_four msg Hcap) as (a0 & a1 & a2 & a3 & tl & Hb).
  exists (bytes_id a0 a1 a2 a3).
  split; [apply (getTraversalId_value _ _ _ _ _ _ Hb)|].
  split; [apply (getTraversalId_value _ a0 a1 a2 a3 tl); rewrite backing_view; exact Hb|].
  split.
  - rewrite idToBytes_value, Hb. simpl firstn.
    rewrite (proj2 (id_bytes_of_bytes_id a0 a1 a2 a3)). reflexivity.
  - rewrite getData_value. apply Nat.leb_gt in Hlen. rewrite Hlen. reflexivity.
Qed.

Lemma short_message_has_an_id_witness :
  exists v,
    getTraversalId (mk_slice [x01] [x00; x00; x00; xff]) = Ret v /\
    getTraversalId (view 4 (backing (mk_slice [x01] [x00; x00; x00; xff]))) = Ret v /\
    idToBytes v =
      Ret (mk_slice (firstn 4 (backing (mk_slice [x01] [x00; x00; x00; xff]))) []) /\
    getData (mk_slice [x01] [x00; x00; x00; xff]) = Panic "slice bounds out of range".
Proof.
  apply (short_message_has_an_id (mk_slice [x01] [x00; x00; x00; xff])); cbv; lia.
Defined.

(** X17: an id and its four bytes determine each other: the id read from a
    message is a uint32 whose encoding is the four bytes it was read from,
    and two uint32 ids with the same encoding are equal. *)
Theorem id_and_bytes_determine_each_other :
  (forall msg v, getTraversalId msg = Ret v ->
     is_uint32 v /\ idToBytes v = Ret (mk_slice (firstn 4 (backing msg)) [])) /\
  (forall a b, is_uint32 a -> is_uint32 b -> idToBytes a = idToBytes b -> a = b).
Proof.
  split.
  - intros msg v H.
    destruct (Nat.le_gt_cases 4 (capacity msg)) as [Hcap | Hcap].
    2:{ unfold getTraversalId in H. rewrite (reslice_head_short msg Hcap) in H.
        discriminate H. }
    destruct (capacity_four msg Hcap) as (a0 & a1 & a2 & a3 & tl & Hb).
    rewrite (getTraversalId_value _ _ _ _ _ _ Hb) in H. injection H as <-.
    destruct (id_bytes_of_bytes_id a0 a1 a2 a3) as [Hr He].
    split; [exact Hr|]. rewrite idToBytes_value, He, Hb. reflexivity.
  - intros a b Ha Hb H. rewrite !idToBytes_value in H.
    injection H as H0 H1 H2 H3.
    rewrite <- (bytes_id_of_id_bytes a Ha), <- (bytes_id_of_id_bytes b Hb).
    rewrite H0, H1, H2, H3. reflexivity.
Qed.

Lemma id_and_bytes_determine_each_other_witness :
  is_uint32 16909060 /\
  idToBytes 16909060 = Ret (mk_slice [x04; x03; x02; x01] []).
Proof.
  destruct id_and_bytes_determine_each_other as [H _].
  apply (H (mk_slice [x04; x03; x02; x01; x0e] [xff]) 16909060%Z). reflexivity.
Defined.
End Codec.

(** ** Package nattraversal: connections, peers and offers *)

Section World.
Import nattraversal.

Lemma put_same {V} (k : string) (v : V) (m : string -> option V) :
  put String.eqb k v m k = Some v.
Proof. unfold put. rewrite String.eqb_refl. reflexivity. Qed.

Lemma put_other {V} (k k' : string) (v : V) (m : string -> option V) :
  k' <> k -> put String.eqb k v m k' = m k'.
Proof.
  intro H. unfold put. destruct (String.eqb_spec k k'); [congruence | reflexivity].
Qed.

Lemma delete_same {V} (k : string) (m : string -> option V) :
  delete String.eqb k m k = None.
Proof. unfold delete. rewrite String.eqb_refl. reflexivity. Qed.

Lemma delete_other {V} (k k' : string) (m : string -> option V) :
  k' <> k -> delete String.eqb k m k' = m k'.
Proof.
  intro H. unfold delete. destruct (String.eqb_spec k k'); [congruence | reflexivity].
Qed.

Lemma putZ_same {V} (k : Z) (v : V) (m : Z -> option V) :
  put Z.eqb k v m k = Some v.
Proof. unfold put. rewrite Z.eqb_refl. reflexivity. Qed.

Lemma putZ_other {V} (k k' : Z) (v : V) (m : Z -> option V) :
  k' <> k -> put Z.eqb k v m k' = m k'.
Proof.
  intro H. unfold put. destruct (Z.eqb_spec k k'); [congruence | reflexivity].
Qed.

(** X18: [CloseWaddellConn] removes the registration of the address and
    nothing else, closes the registered connection once, and does nothing
    at all when no connection is registered, so that a second call is a
    no-op. *)
Theorem CloseWaddellConn_removes_and_closes_once (addr : string) (w : world) :
  WaddellConns (fst (CloseWaddellConn addr w)) addr = None /\
  (forall a, a <> addr ->
     WaddellConns (fst (CloseWaddellConn addr w)) a = WaddellConns w a) /\
  peers (fst (CloseWaddellConn addr w)) = peers w /\
  closes (snd (CloseWaddellConn addr w)) =
    match WaddellConns w addr with
    | Some wc => [conn wc]
    | None => []
    end /\
  (WaddellConns w addr = None -> CloseWaddellConn addr w = (w, [])) /\
  CloseWaddellConn addr (fst (CloseWaddellConn addr w)) =
    (fst (CloseWaddellConn addr w), []).
Proof.
  assert (Habsent : forall w0, WaddellConns w0 addr = None ->
                               CloseWaddellConn addr w0 = (w0, [])).
  { intros w0 H. unfold CloseWaddellConn. rewrite H. reflexivity. }
  assert (Hgone : WaddellConns (fst (CloseWaddellConn addr w)) addr = None).
  { unfold CloseWaddellConn. destruct (WaddellConns w addr) as [wc|] eqn:E.
    - apply delete_same.
    - exact E. }
  split; [exact Hgone|].
  split; [|split; [|split; [|split]]].
  - intros a Ha. unfold CloseWaddellConn. destruct (WaddellConns w addr) as [wc|].
    + apply delete_other, Ha.
    + reflexivity.
  - unfold CloseWaddellConn. destruct (WaddellConns w addr); reflexivity.
  - unfold CloseWaddellConn. destruct (WaddellConns w addr); reflexivity.
  - apply Habsent.
  - apply Habsent, Hgone.
Qed.

Lemma CloseWaddellConn_removes_and_closes_once_witness :
  CloseWaddellConn "w.example:443" empty_world = (empty_world, []).
Proof.
  destruct (CloseWaddellConn_removes_and_closes_once "w.example:443" empty_world)
    as (_ & _ & _ & _ & Habsent & _).
  apply Habsent. reflexivity.
Defined.

(** X19: [ConnectToWaddell] registers a connection under the address
    exactly when the dial and the waddell handshake both succeed, and then
    returns it with a nil error; when either fails it returns that error
    with no connection and leaves the registry as it was.  It never closes
    a connection: not the dialed one when the handshake fails, nor one
    registered under the address before. *)
Theorem ConnectToWaddell_registers_on_success
    (dial : nat * error) (connect : nat -> nat * error) (addr : string) (w : world) :
  closes (snd (ConnectToWaddell dial connect addr w)) = [] /\
  (is_nil (snd dial) = false ->
   ConnectToWaddell dial connect addr w = ((snd dial, None), w, [])) /\
  (is_nil (snd dial) = true -> is_nil (snd (connect (fst dial))) = false ->
   fst (ConnectToWaddell dial connect addr w) =
     ((snd (connect (fst dial)), None), w)) /\
  (is_nil (snd dial) = true -> is_nil (snd (connect (fst dial))) = true ->
   fst (fst (ConnectToWaddell dial connect addr w)) =
     (err_nil, Some (mk_WaddellConn (fst (connect (fst dial))) (fst dial))) /\
   WaddellConns (snd (fst (ConnectToWaddell dial connect addr w))) addr =
     Some (mk_WaddellConn (fst (connect (fst dial))) (fst dial)) /\
   (forall a, a <> addr ->
      WaddellConns (snd (fst (ConnectToWaddell dial connect addr w))) a =
        WaddellConns w a) /\
   peers (snd (fst (ConnectToWaddell dial connect addr w))) = peers w).
Proof.
  unfold ConnectToWaddell.
  destruct dial as [c e]. simpl.
  destruct (is_nil e) eqn:He; simpl.
  - destruct (connect c) as [cl e'] eqn:Hc. simpl.
    destruct (is_nil e') eqn:He'; simpl.
    + split; [reflexivity|]. split; [discriminate|]. split; [discriminate|].
      intros _ _. destruct e'; try discriminate.
      split; [reflexivity|]. split; [apply (put_same addr)|].
      split; [intros a Ha; apply (put_other addr), Ha | reflexivity].
    + split; [reflexivity|]. split; [discriminate|].
      split; [reflexivity | discriminate].
  - split; [reflexivity|]. split; [reflexivity|]. split; discriminate.
Qed.

Lemma ConnectToWaddell_registers_on_success_witness :
  ConnectToWaddell (0%nat, err_other "connection refused") (fun c => (9%nat, err_nil))
    "w.example:443" empty_world =
    ((err_other "connection refused", None), empty_world, []) /\
  fst (ConnectToWaddell (7%nat, err_nil) (fun c => (0%nat, io_EOF))
         "w.example:443" empty_world) = ((io_EOF, None), empty_world) /\
  WaddellConns
    (snd (fst (ConnectToWaddell (7%nat, err_nil) (fun c => (9%nat, err_nil))
                 "w.example:443" empty_world))) "w.example:443" =
    Some (mk_WaddellConn 9 7).
Proof.
  destruct (ConnectToWaddell_registers_on_success
              (0%nat, err_other "connection refused") (fun c => (9%nat, err_nil))
              "w.example:443" empty_world) as (_ & Hdial & _).
  destruct (ConnectToWaddell_registers_on_success
              (7%nat, err_nil) (fun c => (0%nat, io_EOF))
              "w.example:443" empty_world) as (_ & _ & Hshake & _).
  destruct (ConnectToWaddell_registers_on_success
              (7%nat, err_nil) (fun c => (9%nat, err_nil))
              "w.example:443" empty_world) as (_ & _ & _ & Hok).
  split; [apply Hdial; reflexivity|].
  split; [apply Hshake; reflexivity|].
  apply Hok; reflexivity.
Defined.

(** X20: connect, then close: after a successful [ConnectToWaddell],
    [CloseWaddellConn] for the same address closes exactly the connection
    that was dialed, and leaves no registration under the address and the
    registrations of the other addresses as they were at the start. *)
Theorem connect_then_close (c cl : nat) (connect : nat -> nat * error)
    (addr : string) (w : world) :
  connect c = (cl, err_nil) ->
  let w1 := snd (fst (ConnectToWaddell (c, err_nil) connect addr w)) in
  closes (snd (CloseWaddellConn addr w1)) = [c] /\
  WaddellConns (fst (CloseWaddellConn addr w1)) addr = None /\
  (forall a, a <> addr ->
     WaddellConns (fst (CloseWaddellConn addr w1)) a = WaddellConns w a).
Proof.
  intro Hc. unfold ConnectToWaddell. cbn [negb is_nil]. rewrite Hc.
  cbn [negb is_nil fst snd]. unfold CloseWaddellConn. cbn [WaddellConns].
  rewrite put_same. cbn [fst snd WaddellConns conn closes flat_map app].
  split; [reflexivity|]. split; [apply delete_same|].
  intros a Ha. rewrite delete_other, put_other by exact Ha. reflexivity.
Qed.

Lemma connect_then_close_witness :
  closes (snd (CloseWaddellConn "w.example:443"
                 (snd (fst (ConnectToWaddell (7%nat, err_nil) (fun c => (9%nat, err_nil))
                              "w.example:443" empty_world))))) = [7%nat].
Proof.
  apply (connect_then_close 7 9 (fun c => (9%nat, err_nil)) "w.example:443" empty_world).
  reflexivity.
Defined.

(** *** answer *)

Lemma wide_enough (msg : slice) :
  (4 <= len msg)%nat -> (4 <= capacity msg)%nat.
Proof. pose proof (len_le_capacity msg). lia. Qed.

Lemma Peer_answer_value (p : Peer) (wc : nat) (wm : Message) (next : nat)
    (a0 a1 a2 a3 : byte) (tl : list byte) :
  traversalsMutex p = false ->
  backing (Body wm) = a0 :: a1 :: a2 :: a3 :: tl ->
  Peer_answer p wc wm next =
    let v := bytes_id a0 a1 a2 a3 in
    let t := match traversals p v with Some t => t | None => next end in
    let trs := match traversals p v with
               | Some _ => traversals p
               | None => put Z.eqb v next (traversals p)
               end in
    let next' := match traversals p v with Some _ => next | None => S next end in
    let begun := match traversals p v with
                 | Some _ => []
                 | None => [ActLog "Answering traversal: %d"; ActNattyAnswer next;
                            ActGo "send" next; ActGo "receive" next]
                 end in
    if (4 <=? len (Body wm))%nat
    then (Ret tt, mk_Peer (id p) trs false, next',
          begun ++ [ActLog "Received for traversal %d: %s";
                    ActMsgIn t (skipn 4 (elems (Body wm)))])
    else (Panic "slice bounds out of range", mk_Peer (id p) trs false, next', begun).
Proof.
  intros Hm Hb. unfold Peer_answer. rewrite Hm.
  rewrite (getTraversalId_value _ _ _ _ _ _ Hb), getData_value.
  cbv zeta.
  destruct (traversals p (bytes_id a0 a1 a2 a3)) as [t|];
    destruct (4 <=? len (Body wm))%nat; reflexivity.
Qed.

Lemma mutexes_free_put (w : world) (k : PeerId) (p' : Peer) (next : nat) :
  mutexes_free w -> traversalsMutex p' = false ->
  mutexes_free (mk_world (WaddellConns w) (put Z.eqb k p' (peers w)) false next).
Proof.
  intros [_ Htm] Hp'. split; [reflexivity|].
  intros k' q. cbn [peers]. unfold put.
  destruct (Z.eqb k k').
  - intro Hq. injection Hq as <-. exact Hp'.
  - apply Htm.
Qed.

Lemma answer_value (wc : nat) (wm : Message) (w : world)
    (a0 a1 a2 a3 : byte) (tl : list byte) :
  mutexes_free w ->
  backing (Body wm) = a0 :: a1 :: a2 :: a3 :: tl ->
  let v := bytes_id a0 a1 a2 a3 in
  let known := traversal_of w (From wm) v in
  let t := match known with Some t => t | None => natty_next w end in
  exists w' acts,
    answer wc wm w =
      (if (4 <=? len (Body wm))%nat then Ret tt
       else Panic "slice bounds out of range", w', acts) /\
    traversal_of w' (From wm) v = Some t /\
    natty_next w' = match known with Some _ => natty_next w | None => S (natty_next w) end /\
    started acts = match known with Some _ => [] | None => [natty_next w] end /\
    payloads acts =
      (if (4 <=? len (Body wm))%nat then [(t, skipn 4 (elems (Body wm)))] else []) /\
    mutexes_free w' /\
    WaddellConns w' = WaddellConns w.
Proof.
  intros [Hpm Htm] Hb v known t.
  set (p := match peers w (From wm) with
            | Some p => p
            | None => mk_Peer (From wm) (fun _ => None) false
            end).
  assert (Hp : traversalsMutex p = false).
  { subst p. destruct (peers w (From wm)) as [p0|] eqn:E; [|reflexivity].
    apply (Htm _ _ E). }
  assert (Hknown : traversals p v = known).
  { subst p known. unfold traversal_of. destruct (peers w (From wm)); reflexivity. }
  pose proof (Peer_answer_value p wc wm (natty_next w) a0 a1 a2 a3 tl Hp Hb) as Hpa.
  cbv zeta in Hpa. fold v in Hpa. rewrite Hknown in Hpa.
  unfold answer. rewrite Hpm. fold p. rewrite Hpa.
  destruct known as [t0|] eqn:Ek; destruct (4 <=? len (Body wm))%nat eqn:El;
    eexists; eexists; (split; [reflexivity|]);
    (split; [unfold traversal_of; cbn [peers]; rewrite putZ_same; cbn [traversals];
             first [exact Hknown | apply putZ_same]|]);
    (split; [reflexivity|]); (split; [reflexivity|]); (split; [reflexivity|]);
    (split; [|reflexivity]);
    (apply mutexes_free_put; [split; assumption | reflexivity]).
Qed.

(** X21: a message of at least four bytes is handed to a traversal: the
    one registered for its sender and traversal id, or, when there is
    none, a new one from natty, which is registered and is the only one
    started.  The payload handed over is the message without its first
    four bytes, and both mutexes are free again afterwards. *)
Theorem answer_routes_to_traversal (wc : nat) (wm : Message) (w : world) :
  mutexes_free w -> (4 <= len (Body wm))%nat ->
  exists v t w' acts,
    getTraversalId (Body wm) = Ret v /\
    answer wc wm w = (Ret tt, w', acts) /\
    traversal_of w' (From wm) v = Some t /\
    payloads acts = [(t, skipn 4 (elems (Body wm)))] /\
    (traversal_of w (From wm) v = Some t /\ started acts = [] \/
     traversal_of w (From wm) v = None /\ t = natty_next w /\ started acts = [t]) /\
    mutexes_free w'.
Proof.
  intros Hfree Hlen.
  destruct (capacity_four _ (wide_enough _ Hlen)) as (a0 & a1 & a2 & a3 & tl & Hb).
  destruct (answer_value wc wm w a0 a1 a2 a3 tl Hfree Hb)
    as (w' & acts & Ha & Ht & _ & Hs & Hp & Hf & _).
  apply Nat.leb_le in Hlen. rewrite Hlen in Ha, Hp.
  exists (bytes_id a0 a1 a2 a3).
  destruct (traversal_of w (From wm) (bytes_id a0 a1 a2 a3)) as [t0|] eqn:Ek.
  - exists t0, w', acts.
    split; [apply (getTraversalId_value _ _ _ _ _ _ Hb)|].
    split; [exact Ha|]. split; [exact Ht|]. split; [exact Hp|].
    split; [|exact Hf]. left. split; [reflexivity | exact Hs].
  - exists (natty_next w), w', acts.
    split; [apply (getTraversalId_value _ _ _ _ _ _ Hb)|].
    split; [exact Ha|]. split; [exact Ht|]. split; [exact Hp|].
    split; [|exact Hf]. right. split; [reflexivity|]. split; [reflexivity | exact Hs].
Qed.

Lemma free_world_free : mutexes_free empty_world.
Proof. split; [reflexivity | discriminate]. Qed.

Lemma answer_routes_to_traversal_witness :
  exists v t w' acts,
    getTraversalId (mk_slice [x01; x00; x00; x00; x68; x69] []) = Ret v /\
    answer 9 (mk_Message 42%Z (mk_slice [x01; x00; x00; x00; x68; x69] [])) empty_world =
      (Ret tt, w', acts) /\
    traversal_of w' 42%Z v = Some t /\
    payloads acts = [(t, [x68; x69])] /\
    (traversal_of empty_world 42%Z v = Some t /\ started acts = [] \/
     traversal_of empty_world 42%Z v = None /\ t = natty_next empty_world /\
     started acts = [t]) /\
    mutexes_free w'.
Proof.
  apply (answer_routes_to_traversal 9
           (mk_Message 42%Z (mk_slice [x01; x00; x00; x00; x68; x69] [])) empty_world).
  - exact free_world_free.
  - cbv. lia.
Defined.

Lemma forget_traversal_value (from : PeerId) (v : Z) (w : world) (t : nat) :
  mutexes_free w -> traversal_of w from v = Some t ->
  exists wf,
    forget_traversal from v w = (Ret tt, wf) /\
    mutexes_free wf /\
    traversal_of wf from v = None /\
    (forall v', v' <> v -> traversal_of wf from v' = traversal_of w from v') /\
    natty_next wf = natty_next w /\
    WaddellConns wf = WaddellConns w.
Proof.
  intros Hfree Ht. pose proof Hfree as [Hpm Htm].
  unfold traversal_of in Ht. unfold forget_traversal.
  destruct (peers w from) as [p|] eqn:Ep; [|discriminate].
  rewrite (Htm _ _ Ep).
  eexists. split; [reflexivity|].
  split.
  - rewrite Hpm. apply mutexes_free_put; [exact Hfree | reflexivity].
  - unfold traversal_of. cbn [peers natty_next WaddellConns].
    rewrite putZ_same. cbn [traversals]. unfold delete.
    rewrite Z.eqb_refl. repeat split.
    intros v' Hv'. rewrite Ep.
    destruct (Z.eqb v v') eqn:E; [|reflexivity].
    apply Z.eqb_eq in E. congruence.
Qed.

(** X22: a message whose traversal id the sender's peer still has
    registered goes to that traversal and starts nothing: so does a second
    message with the id of a first, straight after it or in any later
    state that still has the registration.  The registration does not
    last: the receive goroutine of the traversal removes it in the end,
    and a message with the same id that comes after that starts a new
    traversal and goes to the new one. *)
Theorem answer_again_while_registered (wc : nat) (wm1 wm2 : Message) (w : world) :
  mutexes_free w ->
  (4 <= len (Body wm1))%nat -> (4 <= len (Body wm2))%nat ->
  From wm1 = From wm2 ->
  getTraversalId (Body wm1) = getTraversalId (Body wm2) ->
  exists v t w1 acts1,
    getTraversalId (Body wm1) = Ret v /\
    answer wc wm1 w = (Ret tt, w1, acts1) /\
    payloads acts1 = [(t, skipn 4 (elems (Body wm1)))] /\
    mutexes_free w1 /\
    traversal_of w1 (From wm1) v = Some t /\
    (forall w', mutexes_free w' -> traversal_of w' (From wm1) v = Some t ->
       exists w2 acts2,
         answer wc wm2 w' = (Ret tt, w2, acts2) /\
         payloads acts2 = [(t, skipn 4 (elems (Body wm2)))] /\
         started acts2 = [] /\
         traversal_of w2 (From wm1) v = Some t) /\
    (exists wf w2 acts2,
       forget_traversal (From wm1) v w1 = (Ret tt, wf) /\
       traversal_of wf (From wm1) v = None /\
       answer wc wm2 wf = (Ret tt, w2, acts2) /\
       started acts2 = [natty_next w1] /\
       payloads acts2 = [(natty_next w1, skipn 4 (elems (Body wm2)))] /\
       traversal_of w2 (From wm1) v = Some (natty_next w1) /\
       (traversal_of w (From wm1) v = None -> natty_next w1 <> t)).
Proof.
  intros Hfree Hlen1 Hlen2 Hfrom Hid.
  destruct (capacity_four _ (wide_enough _ Hlen1)) as (a0 & a1 & a2 & a3 & tl & Hb1).
  destruct (capacity_four _ (wide_enough _ Hlen2)) as (b0 & b1 & b2 & b3 & tl2 & Hb2).
  rewrite (getTraversalId_value _ _ _ _ _ _ Hb1),
    (getTraversalId_value _ _ _ _ _ _ Hb2) in Hid.
  injection Hid as Hid.
  apply Nat.leb_le in Hlen1, Hlen2.
  destruct (answer_value wc wm1 w a0 a1 a2 a3 tl Hfree Hb1)
    as (w1 & acts1 & Ha1 & Ht1 & Hn1 & _ & Hp1 & Hf1 & _).
  rewrite Hlen1 in Ha1, Hp1.
  exists (bytes_id a0 a1 a2 a3). eexists. exists w1, acts1.
  split; [apply (getTraversalId_value _ _ _ _ _ _ Hb1)|].
  split; [exact Ha1|]. split; [exact Hp1|]. split; [exact Hf1|].
  split; [exact Ht1|]. split.
  - intros w' Hf' Ht'.
    destruct (answer_value wc wm2 w' b0 b1 b2 b3 tl2 Hf' Hb2)
      as (w2 & acts2 & Ha2 & Ht2 & _ & Hs2 & Hp2 & _).
    rewrite Hlen2 in Ha2, Hp2.
    rewrite <- Hfrom, <- Hid, Ht' in Ht2, Hs2, Hp2.
    exists w2, acts2. repeat split; assumption.
  - destruct (forget_traversal_value _ _ _ _ Hf1 Ht1)
      as (wf & Hforget & Hff & Htf & _ & Hnf & _).
    destruct (answer_value wc wm2 wf b0 b1 b2 b3 tl2 Hff Hb2)
      as (w2 & acts2 & Ha2 & Ht2 & _ & Hs2 & Hp2 & _).
    rewrite Hlen2 in Ha2, Hp2.
    rewrite <- Hfrom, <- Hid, Htf, Hnf in Ht2, Hs2, Hp2.
    exists wf, w2, acts2.
    split; [exact Hforget|]. split; [exact Htf|]. split; [exact Ha2|].
    split; [exact Hs2|]. split; [exact Hp2|]. split; [exact Ht2|].
    intro Hnew. rewrite Hnew in Hn1 |- *. rewrite Hn1. apply Nat.neq_succ_diag_l.
Qed.

Lemma answer_again_while_registered_witness :
  exists v t w1 acts1,
    getTraversalId (mk_slice [x01; x00; x00; x00; x68] []) = Ret v /\
    answer 9 (mk_Message 42%Z (mk_slice [x01; x00; x00; x00; x68] [])) empty_world =
      (Ret tt, w1, acts1) /\
    payloads acts1 = [(t, [x68])] /\
    mutexes_free w1 /\
    traversal_of w1 42%Z v = Some t /\
    (forall w', mutexes_free w' -> traversal_of w' 42%Z v = Some t ->
       exists w2 acts2,
         answer 9 (mk_Message 42%Z (mk_slice [x01; x00; x00; x00; x69] [])) w' =
           (Ret tt, w2, acts2) /\
         payloads acts2 = [(t, [x69])] /\
         started acts2 = [] /\
         traversal_of w2 42%Z v = Some t) /\
    (exists wf w2 acts2,
       forget_traversal 42%Z v w1 = (Ret tt, wf) /\
       traversal_of wf 42%Z v = None /\
       answer 9 (mk_Message 42%Z (mk_slice [x01; x00; x00; x00; x69] [])) wf =
         (Ret tt, w2, acts2) /\
       started acts2 = [natty_next w1] /\
       payloads acts2 = [(natty_next w1, [x69])] /\
       traversal_of w2 42%Z v = Some (natty_next w1) /\
       (traversal_of empty_world 42%Z v = None -> natty_next w1 <> t)).
Proof.
  apply (answer_again_while_registered 9
           (mk_Message 42%Z (mk_slice [x01; x00; x00; x00; x68] []))
           (mk_Message 42%Z (mk_slice [x01; x00; x00; x00; x69] [])) empty_world).
  - exact free_world_free.
  - cbv. lia.
  - cbv. lia.
  - reflexivity.
  - reflexivity.
Defined.

(** X23: a message shorter than four bytes whose backing array holds four
    makes [answer] panic, but only after the work for its traversal id is
    done: the traversal is registered, and started when it was new.
    Nothing is handed to it, and the deferred unlocks leave both mutexes
    free. *)
Theorem answer_short_message (wc : nat) (wm : Message) (w : world) :
  mutexes_free w ->
  (len (Body wm) < 4)%nat -> (4 <= capacity (Body wm))%nat ->
  exists v t w' acts,
    getTraversalId (Body wm) = Ret v /\
    answer wc wm w = (Panic "slice bounds out of range", w', acts) /\
    payloads acts = [] /\
    traversal_of w' (From wm) v = Some t /\
    (traversal_of w (From wm) v = None -> started acts = [t]) /\
    mutexes_free w'.
Proof.
  intros Hfree Hlen Hcap.
  destruct (capacity_four _ Hcap) as (a0 & a1 & a2 & a3 & tl & Hb).
  destruct (answer_value wc wm w a0 a1 a2 a3 tl Hfree Hb)
    as (w' & acts & Ha & Ht & _ & Hs & Hp & Hf & _).
  apply Nat.leb_gt in Hlen. rewrite Hlen in Ha, Hp.
  exists (bytes_id a0 a1 a2 a3). eexists. exists w', acts.
  split; [apply (getTraversalId_value _ _ _ _ _ _ Hb)|].
  split; [exact Ha|]. split; [exact Hp|]. split; [exact Ht|].
  split; [|exact Hf].
  intro Hnone. rewrite Hnone in Hs. rewrite Hs, Hnone. reflexivity.
Qed.

Lemma answer_short_message_witness :
  exists v t w' acts,
    getTraversalId (mk_slice [x01; x00] [x00; x00]) = Ret v /\
    answer 9 (mk_Message 42%Z (mk_slice [x01; x00] [x00; x00])) empty_world =
      (Panic "slice bounds out of range", w', acts) /\
    payloads acts = [] /\
    traversal_of w' 42%Z v = Some t /\
    (traversal_of empty_world 42%Z v = None -> started acts = [t]) /\
    mutexes_free w'.
Proof.
  apply (answer_short_message 9 (mk_Message 42%Z (mk_slice [x01; x00] [x00; x00]))
           empty_world).
  - exact free_world_free.
  - cbv. lia.
  - cbv. lia.
Defined.

Lemma Peer_answer_frame (p : Peer) (wc : nat) (wm : Message) (next : nat) (v' : Z) :
  getTraversalId (Body wm) <> Ret v' ->
  traversals (snd (fst (fst (Peer_answer p wc wm next)))) v' = traversals p v'.
Proof.
  intro Hv. unfold Peer_answer.
  destruct (traversalsMutex p); [reflexivity|].
  destruct (getTraversalId (Body wm)) as [v| |m]; try reflexivity.
  assert (Hne : v' <> v) by congruence.
  destruct (traversals p v) as [t|]; destruct (getData (Body wm)) as [d| |m];
    cbn [fst snd traversals]; try reflexivity; apply putZ_other, Hne.
Qed.

(** X24: [answer] touches one traversal of one peer.  Whatever the message
    and however the call ends, the registered connections, every other
    peer, and every other traversal id of the sender are as before. *)
Theorem answer_touches_one_traversal (wc : nat) (wm : Message) (w : world) :
  WaddellConns (snd (fst (answer wc wm w))) = WaddellConns w /\
  (forall k, k <> From wm -> peers (snd (fst (answer wc wm w))) k = peers w k) /\
  (forall v', getTraversalId (Body wm) <> Ret v' ->
     traversal_of (snd (fst (answer wc wm w))) (From wm) v' =
       traversal_of w (From wm) v').
Proof.
  unfold answer.
  destruct (peersMutex w); [repeat split|].
  set (p := match peers w (From wm) with
            | Some p => p
            | None => mk_Peer (From wm) (fun _ => None) false
            end).
  pose proof (Peer_answer_frame p wc wm (natty_next w)) as Hframe.
  destruct (Peer_answer p wc wm (natty_next w)) as [[[r p'] next'] acts].
  cbn [fst snd] in Hframe.
  assert (Hold : forall v', traversals p v' = traversal_of w (From wm) v').
  { intro v'. subst p. unfold traversal_of. destruct (peers w (From wm)); reflexivity. }
  destruct r as [[]| |m]; cbn [fst snd WaddellConns peers];
    (split; [reflexivity|]);
    (split; [intros k Hk; apply putZ_other, Hk|]);
    intros v' Hv'; unfold traversal_of at 1; cbn [peers]; rewrite putZ_same;
    rewrite (Hframe v' Hv'); apply Hold.
Qed.

Lemma answer_touches_one_traversal_witness :
  traversal_of
    (snd (fst (answer 9 (mk_Message 42%Z (mk_slice [x01; x00; x00; x00; x68] []))
                 empty_world))) 42%Z 2%Z =
  traversal_of empty_world 42%Z 2%Z.
Proof.
  apply (answer_touches_one_traversal 9
           (mk_Message 42%Z (mk_slice [x01; x00; x00; x00; x68] [])) empty_world).
  discriminate.
Defined.

(** *** ReceiveOffers *)

Lemma always_returns_on_error (err : error) :
  negb (error_eqb err io_EOF) || negb (error_eqb err io_ErrUnexpectedEOF) = true.
Proof. destruct err; reflexivity. Qed.

(** X25: [ReceiveOffers] never retries.  The first [Receive] that fails
    ends it, whatever the error, [io.EOF] and [io.ErrUnexpectedEOF]
    included: after the error is logged the function returns, and nothing
    that could be received afterwards is looked at. *)
Theorem ReceiveOffers_returns_at_first_error (addr : string)
    (pre : list (Message * error)) (wm : Message) (err : error)
    (post : list (Message * error)) :
  is_nil err = false ->
  forall w,
    ReceiveOffers addr (pre ++ (wm, err) :: post) w =
      match ReceiveOffers addr pre w with
      | (Waiting, w1, acts) =>
          (Returned, w1, acts ++ [ActLog "Unable to read message from waddell: %s"])
      | ended => ended
      end.
Proof.
  intro Herr. induction pre as [|[m e] pre IH]; intro w.
  - cbn [app ReceiveOffers]. destruct (WaddellConns w addr); [|reflexivity].
    rewrite Herr, always_returns_on_error. reflexivity.
  - cbn [app ReceiveOffers]. destruct (WaddellConns w addr) as [wc|]; [|reflexivity].
    destruct (is_nil e); cbn [negb].
    + destruct (reslice (Body m) 4 (len (Body m))); try reflexivity.
      destruct (answer (client wc) m w) as [[[u| |s] w1] acts1]; try reflexivity.
      rewrite IH.
      destruct (ReceiveOffers addr pre w1) as [[[] w2] acts2]; try reflexivity.
      rewrite !app_assoc. reflexivity.
    + rewrite always_returns_on_error. reflexivity.
Qed.

Lemma ReceiveOffers_returns_at_first_error_witness :
  ReceiveOffers "w.example:443"
    ([] ++ (mk_Message 0%Z (mk_slice [] []), io_EOF) ::
       [(mk_Message 42%Z (mk_slice [x01; x00; x00; x00; x68] []), err_nil)])
    (snd (fst (ConnectToWaddell (7%nat, err_nil) (fun c => (9%nat, err_nil))
                 "w.example:443" empty_world))) =
  (Returned,
   snd (fst (ConnectToWaddell (7%nat, err_nil) (fun c => (9%nat, err_nil))
               "w.example:443" empty_world)),
   [ActLog "Unable to read message from waddell: %s"]).
Proof.
  apply (ReceiveOffers_returns_at_first_error "w.example:443" []
           (mk_Message 0%Z (mk_slice [] [])) io_EOF
           [(mk_Message 42%Z (mk_slice [x01; x00; x00; x00; x68] []), err_nil)]
           eq_refl).
Defined.

(** X26: a received message shorter than four bytes ends [ReceiveOffers]
    with a panic before the message reaches [answer]: nothing is
    registered, nothing is started, and the messages after it are not
    received. *)
Theorem ReceiveOffers_panics_on_short_message (addr : string) (wc : WaddellConn)
    (wm : Message) (rest : list (Message * error)) (w : world) :
  WaddellConns w addr = Some wc -> (len (Body wm) < 4)%nat ->
  ReceiveOffers addr ((wm, err_nil) :: rest) w =
    (Panicked "slice bounds out of range", w, [ActLog "Peer ID is %s"]).
Proof.
  intros Hwc Hlen. cbn [ReceiveOffers]. rewrite Hwc. cbn [is_nil negb].
  change (reslice (Body wm) 4 (len (Body wm))) with (getData (Body wm)).
  rewrite getData_value. apply Nat.leb_gt in Hlen. rewrite Hlen. reflexivity.
Qed.

Lemma ReceiveOffers_panics_on_short_message_witness :
  ReceiveOffers "w.example:443"
    [(mk_Message 42%Z (mk_slice [x01; x00; x00] [x00]), err_nil);
     (mk_Message 42%Z (mk_slice [x01; x00; x00; x00; x68] []), err_nil)]
    (snd (fst (ConnectToWaddell (7%nat, err_nil) (fun c => (9%nat, err_nil))
                 "w.example:443" empty_world))) =
  (Panicked "slice bounds out of range",
   snd (fst (ConnectToWaddell (7%nat, err_nil) (fun c => (9%nat, err_nil))
               "w.example:443" empty_world)),
   [ActLog "Peer ID is %s"]).
Proof.
  apply (ReceiveOffers_panics_on_short_message "w.example:443" (mk_WaddellConn 9 7)).
  - reflexivity.
  - cbv. lia.
Defined.

(** X27: as long as the messages received have at least four bytes and no
    [Receive] fails, [ReceiveOffers] hands the payload of each to a
    traversal, in the order the messages came, and goes on to wait for
    the next; the registered connections are not touched and the mutexes
    are free again. *)
Theorem ReceiveOffers_answers_in_order (addr : string) (wc : WaddellConn)
    (receives : list (Message * error)) :
  (forall wm e, In (wm, e) receives -> e = err_nil /\ (4 <= len (Body wm))%nat) ->
  forall w,
    WaddellConns w addr = Some wc -> mutexes_free w ->
    exists w' acts,
      ReceiveOffers addr receives w = (Waiting, w', acts) /\
      map snd (payloads acts) =
        map (fun r => skipn 4 (elems (Body (fst r)))) receives /\
      WaddellConns w' = WaddellConns w /\
      mutexes_free w'.
Proof.
  induction receives as [|[wm e] rest IH]; intros Hok w Hwc Hfree.
  - exists w, []. cbn [ReceiveOffers]. rewrite Hwc. repeat split; apply Hfree.
  - destruct (Hok wm e (or_introl eq_refl)) as [-> Hlen].
    destruct (capacity_four _ (wide_enough _ Hlen)) as (a0 & a1 & a2 & a3 & tl & Hb).
    destruct (answer_value (client wc) wm w a0 a1 a2 a3 tl Hfree Hb)
      as (w1 & acts1 & Ha & _ & _ & _ & Hp & Hf1 & Hsame).
    pose proof Hlen as Hle. apply Nat.leb_le in Hle. rewrite Hle in Ha, Hp.
    destruct (IH (fun m e' H => Hok m e' (or_intror H)) w1) as (w' & acts & Hr & Hpay & Hc & Hf').
    { rewrite Hsame. exact Hwc. }
    { exact Hf1. }
    exists w'. eexists.
    split.
    + cbn [ReceiveOffers]. rewrite Hwc. cbn [is_nil negb].
      change (reslice (Body wm) 4 (len (Body wm))) with (getData (Body wm)).
      rewrite getData_value, Hle, Ha, Hr. reflexivity.
    + split; [|split; [congruence | exact Hf']].
      unfold payloads in *. cbn [app flat_map].
      rewrite flat_map_app, map_app, Hp, Hpay. reflexivity.
Qed.

Lemma ReceiveOffers_answers_in_order_witness :
  exists w' acts,
    ReceiveOffers "w.example:443"
      [(mk_Message 42%Z (mk_slice [x01; x00; x00; x00; x68] []), err_nil);
       (mk_Message 42%Z (mk_slice [x01; x00; x00; x00; x69] []), err_nil)]
      (snd (fst (ConnectToWaddell (7%nat, err_nil) (fun c => (9%nat, err_nil))
                   "w.example:443" empty_world))) = (Waiting, w', acts) /\
    map snd (payloads acts) = [[x68]; [x69]] /\
    WaddellConns w' =
      WaddellConns (snd (fst (ConnectToWaddell (7%nat, err_nil)
                                (fun c => (9%nat, err_nil))
                                "w.example:443" empty_world))) /\
    mutexes_free w'.
Proof.
  apply (ReceiveOffers_answers_in_order "w.example:443" (mk_WaddellConn 9 7)
           [(mk_Message 42%Z (mk_slice [x01; x00; x00; x00; x68] []), err_nil);
            (mk_Message 42%Z (mk_slice [x01; x00; x00; x00; x69] []), err_nil)]).
  - intros wm e [H | [H | []]]; injection H as <- <-; split; try reflexivity; cbv; lia.
  - reflexivity.
  - split; [reflexivity | discriminate].
Defined.

(** *** sendMessages and receiveMessages *)

Lemma framed_id (from : PeerId) (v : Z) (payload : list byte) :
  is_uint32 v -> getTraversalId (Body (framed from v payload)) = Ret v.
Proof.
  intro Hv. unfold framed. cbn [Body].
  rewrite (getTraversalId_value _ (byte_of_Z v) (byte_of_Z (Z.shiftr v 8))
             (byte_of_Z (Z.shiftr v 16)) (byte_of_Z (Z.shiftr v 24)) (payload ++ []))
    by reflexivity.
  rewrite bytes_id_of_id_bytes by exact Hv. reflexivity.
Qed.

Lemma framed_data (from : PeerId) (v : Z) (payload : list byte) :
  getData (Body (framed from v payload)) = Ret (mk_slice payload []).
Proof. unfold framed. cbn [Body]. rewrite getData_value. reflexivity. Qed.

Lemma bytes_eqb_false (a b : list byte) : a <> b -> bytes_eqb a b = false.
Proof.
  intro H. unfold bytes_eqb. destruct (list_eq_dec Byte.byte_eq_dec a b); congruence.
Qed.

Lemma bytes_eqb_refl (a : list byte) : bytes_eqb a a = true.
Proof.
  unfold bytes_eqb. destruct (list_eq_dec Byte.byte_eq_dec a a); congruence.
Qed.

(** X28: [sendMessages] sends every message natty produces, in order, each
    as two pieces, the four bytes of the traversal id and the message, and
    returns at the first [done]; what comes with or after [done] is never
    sent.  Read as one message, the two pieces decode to the traversal id
    and the message. *)
Theorem sendMessages_sends_until_done (wc : WaddellConn) (msgs : list (list byte))
    (last : list byte) (rest : list (list byte * bool)) (peer : PeerId) (X : Z) :
  sendMessages wc (map (fun m => (m, false)) msgs ++ (last, true) :: rest) peer X =
    (Returned, tt,
     flat_map (fun m => [ActLog "Sending %s";
                         ActSendPieces (client wc) peer [id_bytes X; m]]) msgs) /\
  (is_uint32 X -> forall m,
     getTraversalId (mk_slice (List.concat [id_bytes X; m]) []) = Ret X /\
     getData (mk_slice (List.concat [id_bytes X; m]) []) = Ret (mk_slice m [])).
Proof.
  split.
  - induction msgs as [|m msgs IH]; [reflexivity|].
    cbn [map app sendMessages flat_map]. rewrite idToBytes_value.
    cbn [elems]. rewrite IH. reflexivity.
  - intros HX m. cbn [List.concat]. rewrite app_nil_r.
    split; [apply (framed_id 0%Z X m HX) | apply (framed_data 0%Z X m)].
Qed.

Lemma sendMessages_sends_until_done_witness :
  getTraversalId (mk_slice (List.concat [id_bytes 7; [x68; x69]]) []) = Ret 7%Z /\
  getData (mk_slice (List.concat [id_bytes 7; [x68; x69]]) []) =
    Ret (mk_slice [x68; x69] []).
Proof.
  apply (sendMessages_sends_until_done (mk_WaddellConn 9 7) [] [] [] 42%Z 7%Z).
  unfold is_uint32. lia.
Defined.

(** X29: [receiveMessages] hands to its traversal exactly the messages that
    carry its traversal id, unchanged and in order, and skips the others.
    (Messages whose payload is the text "Ready" are set apart here.) *)
Theorem receiveMessages_delivers_own_messages (wc : WaddellConn) (from : PeerId)
    (t : nat) (X : Z) (ch : chan bool) (items : list (Z * list byte)) :
  (forall y p, In (y, p) items -> is_uint32 y /\ p <> Ready) ->
  exists acts,
    receiveMessages wc (map (fun i => (framed from (fst i) (snd i), err_nil)) items)
                    t X ch = (Waiting, ch, acts) /\
    payloads acts =
      map (fun i => (t, snd i)) (filter (fun i => (fst i =? X)%Z) items) /\
    signals acts = 0%nat.
Proof.
  induction items as [|[y p] items IH]; intro Hok.
  - exists []. repeat split.
  - destruct (Hok y p (or_introl eq_refl)) as [Hy Hp].
    destruct (IH (fun y' p' H => Hok y' p' (or_intror H))) as (acts & Hr & Hpay & Hsig).
    cbn [map receiveMessages is_nil negb fst snd filter].
    rewrite (framed_id from y p Hy).
    destruct (Z.eqb y X) eqn:E; cbn [negb].
    + rewrite framed_data. cbn [elems].
      rewrite (bytes_eqb_false Ready p) by congruence.
      rewrite Hr. eexists. split; [reflexivity|].
      unfold payloads, signals in *. cbn [app flat_map map].
      split; [rewrite Hpay; reflexivity | exact Hsig].
    + rewrite Hr. eexists. split; [reflexivity|].
      unfold payloads, signals in *. cbn [app flat_map map].
      split; [exact Hpay | exact Hsig].
Qed.

Lemma receiveMessages_delivers_own_messages_witness :
  exists acts,
    receiveMessages (mk_WaddellConn 9 7)
      (map (fun i => (framed 42%Z (fst i) (snd i), err_nil))
           [(7%Z, [x68]); (8%Z, [x69]); (7%Z, [x6a])])
      3 7%Z serverReady = (Waiting, serverReady, acts) /\
    payloads acts =
      map (fun i => (3%nat, snd i))
          (filter (fun i => (fst i =? 7)%Z) [(7%Z, [x68]); (8%Z, [x69]); (7%Z, [x6a])]) /\
    signals acts = 0%nat.
Proof.
  apply (receiveMessages_delivers_own_messages (mk_WaddellConn 9 7) 42%Z 3 7%Z
           serverReady [(7%Z, [x68]); (8%Z, [x69]); (7%Z, [x6a])]).
  intros y p [H | [H | [H | []]]]; injection H as <- <-;
    (split; [unfold is_uint32; lia | discriminate]).
Defined.

Lemma and_go_on_parts {S} (acts : list action) (r : ending * S * list action) :
  fst (fst (and_go_on acts r)) = fst (fst r) /\
  snd (fst (and_go_on acts r)) = snd (fst r) /\
  snd (and_go_on acts r) = acts ++ snd r.
Proof. destruct r as [[e s] more]. repeat split. Qed.

Lemma ready_loop (wc : WaddellConn) (from : PeerId) (t : nat) (X : Z) (k : nat) :
  is_uint32 X ->
  forall ch, chclosed ch = false -> recvq ch = 0%nat ->
    let room := (cap ch - List.length (buf ch))%nat in
    let r := receiveMessages wc (repeat (framed from X Ready, err_nil) k) t X ch in
    payloads (snd r) = [] /\
    ((k <= room)%nat ->
     fst (fst r) = Waiting /\ signals (snd r) = k /\
     buf (snd (fst r)) = buf ch ++ repeat true k) /\
    ((room < k)%nat ->
     fst (fst r) = Parked /\ signals (snd r) = room /\
     buf (snd (fst r)) = buf ch ++ repeat true room).
Proof.
  intro HX. induction k as [|k IH]; intros ch Hopen Hrq; cbv zeta.
  - cbn [repeat receiveMessages fst snd]. split; [reflexivity|]. split.
    + intros _. rewrite app_nil_r. repeat split.
    + lia.
  - cbn [repeat receiveMessages is_nil negb].
    rewrite (framed_id from X Ready HX), Z.eqb_refl. cbn [negb].
    rewrite framed_data. cbn [elems]. rewrite bytes_eqb_refl.
    unfold Chan.send. rewrite Hopen, Hrq.
    destruct (Nat.ltb_spec (List.length (buf ch)) (cap ch)) as [Hlt | Hge].
    + set (ch' := mk_chan (buf ch ++ [true]) (cap ch) (sendq ch) 0 false).
      specialize (IH ch' eq_refl eq_refl). cbv zeta in IH.
      destruct IH as (Hp & Hfit & Hfull).
      cbn [cap buf ch'] in Hfit, Hfull. rewrite length_app in Hfit, Hfull.
      cbn [List.length] in Hfit, Hfull.
      destruct (and_go_on_parts [ActLog "Received: %s"; ActReady]
                  (receiveMessages wc (repeat (framed from X Ready, err_nil) k) t X ch'))
        as (-> & -> & ->).
      split; [unfold payloads in *; cbn [app flat_map]; exact Hp|].
      split; intro Hk.
      * destruct Hfit as (He & Hs & Hb); [lia|].
        split; [exact He|]. split.
        -- unfold signals in *. cbn [app flat_map List.length]. rewrite Hs. reflexivity.
        -- rewrite Hb. cbn [repeat]. rewrite <- app_assoc. reflexivity.
      * destruct Hfull as (He & Hs & Hb); [lia|].
        split; [exact He|]. split.
        -- unfold signals in *. cbn [app flat_map List.length]. rewrite Hs. lia.
        -- rewrite Hb.
           replace (cap ch - List.length (buf ch))%nat
             with (S (cap ch - (List.length (buf ch) + 1)))%nat by lia.
           cbn [repeat]. rewrite <- app_assoc. reflexivity.
    + cbn [fst snd]. split; [reflexivity|]. split; intro Hk; [lia|].
      replace (cap ch - List.length (buf ch))%nat with 0%nat by lia.
      rewrite app_nil_r. repeat split.
Qed.

(** X30: a message for the traversal whose payload is the text "Ready" is
    not handed to natty: it puts a signal on [serverReady].  The channel
    holds [NumUDPTestPackets] signals, so with nobody taking them out
    [receiveMessages] goes through ten such messages and parks on the
    eleventh. *)
Theorem receiveMessages_parks_on_eleventh_Ready (wc : WaddellConn) (from : PeerId)
    (t : nat) (X : Z) (k : nat) :
  is_uint32 X ->
  let r := receiveMessages wc (repeat (framed from X Ready, err_nil) k) t X serverReady in
  payloads (snd r) = [] /\
  ((k <= NumUDPTestPackets)%nat ->
   fst (fst r) = Waiting /\ signals (snd r) = k /\
   buf (snd (fst r)) = repeat true k) /\
  ((NumUDPTestPackets < k)%nat ->
   fst (fst r) = Parked /\ signals (snd r) = NumUDPTestPackets /\
   buf (snd (fst r)) = repeat true NumUDPTestPackets).
Proof.
  intro HX.
  exact (ready_loop wc from t X k HX serverReady eq_refl eq_refl).
Qed.

Lemma receiveMessages_parks_on_eleventh_Ready_witness :
  fst (fst (receiveMessages (mk_WaddellConn 9 7)
              (repeat (framed 42%Z 7%Z Ready, err_nil) 11) 3 7%Z serverReady)) = Parked /\
  signals (snd (receiveMessages (mk_WaddellConn 9 7)
                  (repeat (framed 42%Z 7%Z Ready, err_nil) 11) 3 7%Z serverReady)) =
    NumUDPTestPackets.
Proof.
  destruct (receiveMessages_parks_on_eleventh_Ready (mk_WaddellConn 9 7) 42%Z 3 7%Z 11)
    as (_ & _ & Hfull).
  - unfold is_uint32. lia.
  - destruct Hfull as (He & Hs & _); [cbv; lia|]. split; assumption.
Defined.
End World.
